(** * aeacus: the condition checks of [checks.go]

    A shallow embedding of [checks.go]: the condition record, the
    reflective argument validation [requireArgs], the predicates
    ([CommandContains], [CommandOutput], [DirContains], [FileContains],
    [PathExists]) and the dispatcher [runCheck], followed by the
    properties of the specification that concern them.

    Go strings are byte strings and are modelled by [string]; a Go
    [error] value is [option error], with [None] for [nil].  The
    collaborators that live outside [checks.go] (logging, shell, file
    system, regular expressions, obfuscation) are the fields of one
    record [Env]; every definition below is a function of it. *)

From Stdlib Require Import String Ascii List Arith Lia Bool.
From stdpp Require Import gmap strings list.
Import ListNotations.
Local Open Scope string_scope.
Local Open Scope list_scope.

(** ** Go strings *)

Module GoStrings.

(** [strings.Contains(s, substr)]: [substr] occurs somewhere in [s]. *)
Fixpoint strings_Contains (s substr : string) : bool :=
  String.prefix substr s ||
  match s with
  | EmptyString => false
  | String _ s' => strings_Contains s' substr
  end.

(** [strings.Split(s, sep)] for a non-empty separator: the pieces of
    [s] between the non-overlapping occurrences of [sep], read from
    the left.  [skip] counts the bytes of a separator still to drop.
    [checks.go] only calls it with the one-byte separator "\n". *)
Fixpoint split_from (sep : string) (skip : nat) (s : string) : list string :=
  match s with
  | EmptyString => [EmptyString]
  | String a s' =>
      match skip with
      | S k => split_from sep k s'
      | O =>
          if String.prefix sep s
          then EmptyString :: split_from sep (String.length sep - 1) s'
          else match split_from sep 0 s' with
               | piece :: pieces => String a piece :: pieces
               | [] => [String a EmptyString]
               end
      end
  end.

Definition strings_Split (s sep : string) : list string := split_from sep 0 s.

(** The byte "\n". *)
Definition newline : string := String (ascii_of_nat 10) EmptyString.

(** The Go slice expression [s[lo:hi]]. *)
Definition slice (s : string) (lo hi : nat) : string := substring lo (hi - lo) s.

End GoStrings.
Export GoStrings.

(** ** Errors *)

(** What [os.IsNotExist] and [os.IsPermission] can tell about an error. *)
Inductive errKind := ErrNotExist | ErrPermission | ErrOther.

Record error := mkError { err_kind : errKind; Error : string }.

(** [errors.New(text)]: a plain error, neither "not exist" nor "permission". *)
Definition errors_New (text : string) : error := mkError ErrOther text.

Definition os_IsNotExist (err : option error) : bool :=
  match err with
  | Some (mkError ErrNotExist _) => true
  | _ => false
  end.

Definition os_IsPermission (err : option error) : bool :=
  match err with
  | Some (mkError ErrPermission _) => true
  | _ => false
  end.

(** [err != nil] and [err == nil]. *)
Definition notNil (err : option error) : bool :=
  match err with Some _ => true | None => false end.
Definition isNil (err : option error) : bool := negb (notNil err).

(** ** Conditions *)

(** [cond]: the parameters of one test.  [Type] is a keyword here, so
    the field is [Type_]. *)
Record cond := mkCond {
  Hint : string;
  Type_ : string;
  Path : string;
  Cmd : string;
  User : string;
  Group : string;
  Name : string;
  Key : string;
  Value : string;
  After : string;
  regex : bool
}.

(** The composite literal [cond{}]: every field at its zero value. *)
Definition cond_zero : cond := mkCond "" "" "" "" "" "" "" "" "" "" false.

Definition set_Path (c : cond) (p : string) : cond :=
  mkCond (Hint c) (Type_ c) p (Cmd c) (User c) (Group c) (Name c) (Key c)
         (Value c) (After c) (regex c).

Definition set_regex (b : bool) (c : cond) : cond :=
  mkCond (Hint c) (Type_ c) (Path c) (Cmd c) (User c) (Group c) (Name c) (Key c)
         (Value c) (After c) b.

(** ** Reflection *)

(** A [reflect.Value] as far as [checks.go] looks at one: the value of
    a struct field, or a value returned by a method. *)
Inductive rvalue :=
| RString (s : string)
| RBool (b : bool)
| RError (e : option error).

(** [reflect.Value.String()]: the string itself, or a placeholder for
    a value of another kind. *)
Definition rvalue_String (v : rvalue) : string :=
  match v with
  | RString s => s
  | RBool _ => "<bool Value>"
  | RError _ => "<error Value>"
  end.

(** The fields of [cond] in declaration order, as [reflect] numbers them. *)
Definition cond_fields (c : cond) : list (string * rvalue) :=
  [ ("Hint", RString (Hint c));
    ("Type", RString (Type_ c));
    ("Path", RString (Path c));
    ("Cmd", RString (Cmd c));
    ("User", RString (User c));
    ("Group", RString (Group c));
    ("Name", RString (Name c));
    ("Key", RString (Key c));
    ("Value", RString (Value c));
    ("After", RString (After c));
    ("regex", RBool (regex c)) ].

(** ** Logging, panics and the result of a call *)

(** An argument handed to [fail], [warn] or [debug]. *)
Inductive logArg :=
| AStr (s : string)
| ABool (b : bool)
| AValue (v : rvalue)
| ACond (c : cond).

(** One call of the logging collaborator. *)
Inductive event :=
| EvFail (args : list logArg)
| EvWarn (args : list logArg)
| EvDebug (args : list logArg).

(** What a Go [panic] carries: a [*reflect.ValueError] (method and
    kind), or a run-time error. *)
Inductive panicValue :=
| PValueError (method kind : string)
| PRuntimeError (msg : string).

(** The [Error] method of a [reflect.ValueError]; the empty kind
    stands for [reflect.Invalid]. *)
Definition ValueError_Error (method kind : string) : string :=
  if String.eqb kind ""
  then "reflect: call of " ++ method ++ " on zero Value"
  else "reflect: call of " ++ method ++ " on " ++ kind ++ " Value".

(** How a call ends: it returns a value, it panics, or the process has
    been terminated underneath it. *)
Inductive outcome (A : Type) :=
| Ret (a : A)
| Panic (p : panicValue)
| Exit.
Arguments Ret {A} a.
Arguments Panic {A} p.
Arguments Exit {A}.

(** A computation that logs: the events it emitted, in order, and how
    it ended. *)
Definition L (A : Type) : Type := list event * outcome A.

#[global] Instance L_ret : MRet L := fun A a => ([], Ret a).

#[global] Instance L_bind : MBind L := fun A B f m =>
  match m with
  | (evs, Ret a) => let '(evs', o) := f a in (evs ++ evs', o)
  | (evs, Panic p) => (evs, Panic p)
  | (evs, Exit) => (evs, Exit)
  end.

Definition panic {A : Type} (p : panicValue) : L A := ([], Panic p).

(** The value a computation returned, if it returned. *)
Definition result {A : Type} (m : L A) : option A :=
  match snd m with
  | Ret a => Some a
  | _ => None
  end.

Definition events {A : Type} (m : L A) : list event := fst m.

(** ** The collaborators *)

(** [os.FileInfo], of which the walk only asks [IsDir]. *)
Record FileInfo := mkFileInfo { IsDir : bool }.

(** One call of the function handed to [filepath.Walk]: the path, its
    [FileInfo] ([None] for the nil interface, which [Walk] passes when
    it could not stat the entry) and the error met on the way there. *)
Record visit := mkVisit {
  visit_path : string;
  visit_info : option FileInfo;
  visit_err : option error
}.

Record Env := mkEnv {
  (** whether [fail], the fatal severity of the logger, terminates the
      process once it has logged, or returns to its caller; it is
      declared outside [checks.go], so both are covered *)
  fail_exits : bool;
  (** the global [verboseEnabled] *)
  verboseEnabled : bool;
  (** [shellCommandOutput(cmd)] *)
  shellCommandOutput : string -> string * option error;
  (** [readFile(path)] *)
  readFile : string -> string * option error;
  (** [os.Stat(path)], of which only the error is used *)
  os_Stat : string -> option error;
  (** the entries [filepath.Walk(root, fn)] presents to [fn], in order,
      as long as [fn] keeps returning nil *)
  walk_visits : string -> list visit;
  (** [regexp.Compile(pattern)]: a matcher, or a syntax error *)
  regexp_Compile : string -> (string -> bool) + error;
  (** [strings.TrimSpace] *)
  strings_TrimSpace : string -> string;
  (** the SHA-256 digest of a byte string, in lower-case hexadecimal *)
  sha256_hex : string -> string;
  (** [deobfuscateCond(&c)] and [obfuscateCond(&c)]: the condition they
      leave behind the pointer, and the error they return *)
  deobfuscateCond : cond -> cond * option error;
  obfuscateCond : cond -> cond * option error;
  (** the exported niladic methods of [cond] declared in the other
      files of the package, by name *)
  other_methods : string -> option (cond -> L (list rvalue))
}.

Section Checks.

Variable E : Env.

(** *** The logging collaborator *)

Definition fail (args : list logArg) : L unit :=
  ([EvFail args], if fail_exits E then Exit else Ret tt).

Definition warn (args : list logArg) : L unit := ([EvWarn args], Ret tt).

Definition debug (args : list logArg) : L unit := ([EvDebug args], Ret tt).

(** *** [requireArgs] *)

(** The body of the loop over the fields, for the field [(name, v)]. *)
Definition requireArgs_field (cType : string) (args : list string)
           (name : string) (v : rvalue) : L unit :=
  if String.eqb name "Type" || String.eqb name "regex" then mret tt
  else if String.eqb name "Hint" then mret tt
  else
    let required := existsb (String.eqb name) args in
    if required then
      if String.eqb (rvalue_String v) ""
      then fail [AStr (cType ++ ":");
                 AStr ("missing required argument '" ++ name ++ "'")]
      else mret tt
    else if negb (String.eqb (rvalue_String v) "")
         then warn [AStr (cType ++ ":");
                    AStr ("specifying unused argument '" ++ name ++ "'")]
         else mret tt.

Fixpoint requireArgs_loop (cType : string) (args : list string)
         (fields : list (string * rvalue)) : L unit :=
  match fields with
  | [] => mret tt
  | (name, v) :: rest =>
      requireArgs_field cType args name v ;;
      requireArgs_loop cType args rest
  end.

Definition requireArgs (c : cond) (args : list string) : L unit :=
  if String.eqb (Type_ c) "" then mret tt
  else requireArgs_loop (Type_ c) args (cond_fields c).

(** *** The predicates *)

(** [regexp.Match(pattern, b)]: compile, then match. *)
Definition regexp_Match (pattern : string) (b : string) : bool * option error :=
  match regexp_Compile E pattern with
  | inr err => (false, Some err)
  | inl re => (re b, None)
  end.

Definition CommandContains (c : cond) : L (bool * option error) :=
  requireArgs c ["Cmd"; "Value"] ;;
  let '(out, err) := shellCommandOutput E (Cmd c) in
  if notNil err then mret (false, err)
  else if regex c then
    let outTrim := strings_TrimSpace E out in
    mret (regexp_Match (Value c) outTrim)
  else mret (strings_Contains (strings_TrimSpace E out) (Value c), err).

Definition CommandOutput (c : cond) : L (bool * option error) :=
  requireArgs c ["Cmd"; "Value"] ;;
  let '(out, err) := shellCommandOutput E (Cmd c) in
  mret (String.eqb (strings_TrimSpace E out) (Value c), err).

Definition PathExists (c : cond) : L (bool * option error) :=
  requireArgs c ["Path"] ;;
  let err := os_Stat E (Path c) in
  if notNil err && os_IsNotExist err then mret (false, None)
  else if notNil err then mret (false, err)
  else mret (true, None).

(** The loop of [FileContains] over the lines still to read; [found]
    and [err] are the variables of that name. *)
Fixpoint FileContains_loop (c : cond) (lines : list string)
         (found : bool) (err : option error) : bool * option error :=
  match lines with
  | [] => (found, err)
  | line :: rest =>
      if regex c then
        let '(found, err) := regexp_Match (Value c) line in
        if notNil err then (false, err)
        else if found then (found, err)
        else FileContains_loop c rest found err
      else
        let found := strings_Contains line (Value c) in
        if found then (found, err)
        else FileContains_loop c rest found err
  end.

Definition FileContains (c : cond) : L (bool * option error) :=
  requireArgs c ["Path"; "Value"] ;;
  let '(fileContent, err) := readFile E (Path c) in
  if notNil err then mret (false, err)
  else mret (FileContains_loop c (strings_Split fileContent newline) false err).

(** [FileEquals]; the [Write] of a hash never returns an error. *)
Definition FileEquals (c : cond) : L (bool * option error) :=
  requireArgs c ["Path"; "Value"] ;;
  let '(fileContent, err) := readFile E (Path c) in
  if notNil err then mret (false, err)
  else
    let hash := sha256_hex E fileContent in
    mret (String.eqb hash (Value c), None).

(** [filepath.Walk(root, fn)]: [fn] is called on the entries in turn
    until it returns an error, which ends the walk and is returned
    (the function of [DirContains] returns nil or an error of its own
    making, never [filepath.SkipDir]).  [s] is the state of the
    variables the closure [fn] captures. *)
Fixpoint walk_loop {S : Type} (fn : S -> visit -> L (S * option error))
         (visits : list visit) (s : S) : L (S * option error) :=
  match visits with
  | [] => mret (s, None)
  | v :: rest =>
      '(s', err) ← fn s v;
      if notNil err then mret (s', err) else walk_loop fn rest s'
  end.

Definition filepath_Walk {S : Type} (root : string)
           (fn : S -> visit -> L (S * option error)) (s : S) : L (S * option error) :=
  walk_loop fn (walk_visits E root) s.

(** The function literal [DirContains] hands to [filepath.Walk];
    [files] is the captured slice.  Calling [IsDir] on a nil [info]
    is a nil dereference. *)
Definition DirContains_walkFn (files : list string) (v : visit)
  : L (list string * option error) :=
  match visit_info v with
  | None => panic (PRuntimeError "invalid memory address or nil pointer dereference")
  | Some info =>
      let files := if negb (IsDir info) then files ++ [visit_path v] else files in
      if (10000 <? Z.of_nat (length files))%Z
      then mret (files, Some (errors_New "attempted to index too many files in recursive search"))
      else mret (files, None)
  end.

(** The loop of [DirContains] over the files found. *)
Fixpoint DirContains_search (c : cond) (files : list string) : L (bool * option error) :=
  match files with
  | [] => mret (false, None)
  | file :: rest =>
      let c := set_Path c file in
      '(result, err) ← FileContains c;
      if os_IsPermission err then mret (false, err)
      else if (result : bool) then mret (result, None)
      else DirContains_search c rest
  end.

Definition DirContains (c : cond) : L (bool * option error) :=
  requireArgs c ["Path"; "Value"] ;;
  '(result, err) ← PathExists (set_Path cond_zero (Path c));
  if notNil err then mret (false, err)
  else if negb (result : bool) then mret (false, Some (errors_New "path does not exist"))
  else
    '(files, err) ← filepath_Walk (Path c) DirContains_walkFn [];
    if notNil err then mret (false, err)
    else DirContains_search c files.

(** [String]: one line per field whose string form is not empty. *)
Definition cond_String (c : cond) : string :=
  fold_left
    (fun (output : string) (field : string * rvalue) =>
       let '(name, v) := field in
       if String.eqb (rvalue_String v) "" then output
       else (output ++ String (ascii_of_nat 9) (name ++ ": " ++ rvalue_String v ++ newline))%string)
    (cond_fields c) "".

(** *** Dispatch by name *)

(** A predicate seen through [reflect]: its two results as values. *)
Definition as_values (m : L (bool * option error)) : L (list rvalue) :=
  '(b, err) ← m; mret [RBool b; RError err].

(** [reflect.ValueOf(c).MethodByName(name)]: the exported methods of
    [cond]; [None] is the zero [Value] of a name that is not one. *)
Definition MethodByName (name : string) : option (cond -> L (list rvalue)) :=
  if String.eqb name "CommandContains" then Some (fun c => as_values (CommandContains c))
  else if String.eqb name "CommandOutput" then Some (fun c => as_values (CommandOutput c))
  else if String.eqb name "DirContains" then Some (fun c => as_values (DirContains c))
  else if String.eqb name "FileContains" then Some (fun c => as_values (FileContains c))
  else if String.eqb name "FileEquals" then Some (fun c => as_values (FileEquals c))
  else if String.eqb name "PathExists" then Some (fun c => as_values (PathExists c))
  else if String.eqb name "String" then Some (fun c => mret [RString (cond_String c)])
  else other_methods E name.

(** [Value.Call] with no arguments; on the zero [Value] it panics. *)
Definition reflect_Call (m : option (cond -> L (list rvalue))) (c : cond) : L (list rvalue) :=
  match m with
  | Some method => method c
  | None => panic (PValueError "reflect.Value.Call" "")
  end.

(** [vals[i]] *)
Definition index (vals : list rvalue) (i : nat) : L rvalue :=
  match nth_error vals i with
  | Some v => mret v
  | None => panic (PRuntimeError "index out of range")
  end.

(** [Value.Bool()] *)
Definition reflect_Bool (v : rvalue) : L bool :=
  match v with
  | RBool b => mret b
  | RString _ => panic (PValueError "reflect.Value.Bool" "string")
  | RError _ => panic (PValueError "reflect.Value.Bool" "interface")
  end.

(** [Value.IsNil()] *)
Definition reflect_IsNil (v : rvalue) : L bool :=
  match v with
  | RError err => mret (isNil err)
  | RString _ => panic (PValueError "reflect.Value.IsNil" "string")
  | RBool _ => panic (PValueError "reflect.Value.IsNil" "bool")
  end.

(** [handleReflectPanic]; [r] is what [recover()] returned. The type
    assertion on [r] is evaluated before [fail] is called. *)
Definition handleReflectPanic (condFunc : string) (r : option panicValue) : L unit :=
  match r with
  | None => mret tt
  | Some (PValueError method kind) =>
      fail [AStr ("Check type does not exist: " ++ condFunc);
            AStr ("(" ++ ValueError_Error method kind ++ ")")]
  | Some (PRuntimeError _) =>
      panic (PRuntimeError "interface conversion: interface is not a reflect.ValueError")
  end.

(** Lines 125 to 133 of [runCheck] on the condition type: the name of
    the method to call, [negation], and the value of [cond.regex].
    [runCheck] gets there only with a type longer than "Regex", so
    the slices are within bounds. *)
Definition resolveModifiers (condType : string) : string * bool * bool :=
  let not := "Not" in
  let regex := "Regex" in
  let n := String.length condType in
  let condFunc := condType in
  let negation := false in
  let '(negation, condFunc) :=
    if String.eqb (slice condType (n - String.length not) n) not
    then (true, slice condType 0 (n - String.length not))
    else (negation, condFunc) in
  let '(rx, condFunc) :=
    if String.eqb (slice condType (n - String.length regex) n) regex
    then (true, slice condType 0 (n - String.length regex))
    else (false, condFunc) in
  (condFunc, negation, rx).

End Checks.

(** ** Variables and pointers *)

(** [runCheck] takes the address of its parameter and hands it to the
    obfuscation collaborator, so the variables that hold conditions
    are cells of a store, addressed by [positive] numbers.  A
    computation of [St] reads and writes the store and logs. *)
Definition St (A : Type) : Type := gmap positive cond -> gmap positive cond * L A.

#[global] Instance St_ret : MRet St := fun A a σ => (σ, mret a).

#[global] Instance St_bind : MBind St := fun A B f m σ =>
  match m σ with
  | (σ1, (evs, Ret a)) => let '(σ2, (evs', o)) := f a σ1 in (σ2, (evs ++ evs', o))
  | (σ1, (evs, Panic p)) => (σ1, (evs, Panic p))
  | (σ1, (evs, Exit)) => (σ1, (evs, Exit))
  end.

(** A computation that does not touch the store. *)
Definition lift {A : Type} (m : L A) : St A := fun σ => (σ, m).

(** A new variable initialised with [c]: what passing [c] by value to
    a function does for its parameter. *)
Definition new_var (c : cond) : St positive := fun σ =>
  let p := fresh (dom σ) in (<[p := c]> σ, mret p).

(** Reading a variable through its address. *)
Definition load (p : positive) : St cond := fun σ =>
  match σ !! p with
  | Some c => (σ, mret c)
  | None => (σ, panic (PRuntimeError "invalid memory address or nil pointer dereference"))
  end.

(** Writing a variable through its address. *)
Definition store (p : positive) (c : cond) : St unit := fun σ => (<[p := c]> σ, mret tt).

(** [defer d] before [body]: [d] runs when [body] returns or panics,
    not when the process exits; a panic of [body] goes on after [d],
    unless [d] panics itself. *)
Definition defer {A : Type} (d : St unit) (body : St A) : St A := fun σ =>
  match body σ with
  | (σ1, (evs, Exit)) => (σ1, (evs, Exit))
  | (σ1, (evs, o)) =>
      match d σ1 with
      | (σ2, (evs', Ret _)) => (σ2, (evs ++ evs', o))
      | (σ2, (evs', Panic p')) => (σ2, (evs ++ evs', Panic p'))
      | (σ2, (evs', Exit)) => (σ2, (evs ++ evs', Exit))
      end
  end.

(** [defer h] for a function [h] that starts by calling [recover()]:
    [h] receives the value of the panic under way, or [None], and a
    panic it has recovered makes the function return [zero], the zero
    value of its unnamed result. *)
Definition defer_recovering {A : Type} (h : option panicValue -> St unit)
           (zero : A) (body : St A) : St A := fun σ =>
  match body σ with
  | (σ1, (evs, Exit)) => (σ1, (evs, Exit))
  | (σ1, (evs, Ret a)) =>
      match h None σ1 with
      | (σ2, (evs', Ret _)) => (σ2, (evs ++ evs', Ret a))
      | (σ2, (evs', Panic p')) => (σ2, (evs ++ evs', Panic p'))
      | (σ2, (evs', Exit)) => (σ2, (evs ++ evs', Exit))
      end
  | (σ1, (evs, Panic p)) =>
      match h (Some p) σ1 with
      | (σ2, (evs', Ret _)) => (σ2, (evs ++ evs', Ret zero))
      | (σ2, (evs', Panic p')) => (σ2, (evs ++ evs', Panic p'))
      | (σ2, (evs', Exit)) => (σ2, (evs ++ evs', Exit))
      end
  end.

(** The double quote. *)
Definition dquote : string := String (ascii_of_nat 34) EmptyString.

Section Dispatch.

Variable E : Env.

(** [deobfuscateCond(&cond)] and [obfuscateCond(&cond)] for the
    variable at [p]: the collaborator rewrites the variable in place
    and returns its error. *)
Definition deobfuscateCond_at (p : positive) : St (option error) :=
  c ← load p;
  let '(c', err) := deobfuscateCond E c in
  store p c' ;; mret err.

Definition obfuscateCond_at (p : positive) : St (option error) :=
  c ← load p;
  let '(c', err) := obfuscateCond E c in
  store p c' ;; mret err.

(** [err.Error()] *)
Definition error_text (err : option error) : string :=
  match err with Some e => Error e | None => "" end.

(** Lines 140 to 154 of [runCheck]: what it makes of the values [vals]
    the method returned. *)
Definition verdict (condFunc : string) (negation : bool) (vals : list rvalue) : L bool :=
  result ← (v ← index vals 0; reflect_Bool v);
  err ← index vals 1;
  if negation then
    debug [AStr "Result is"; ABool (negb result); AStr "(was"; ABool result;
           AStr "before negation) and error is"; AValue err] ;;
    isnil ← reflect_IsNil err;
    mret (isnil && negb result)
  else
    debug [AStr "Result is"; ABool result; AStr "and error is"; AValue err] ;;
    (if verboseEnabled E then
       isnil ← reflect_IsNil err;
       if negb isnil
       then warn [AStr condFunc; AStr "returned an error:"; AValue err]
       else mret tt
     else mret tt) ;;
    isnil ← reflect_IsNil err;
    mret (isnil && result).

(** Lines 139 to 154: the call of the method by its name, on the
    condition as it stands, and the verdict. *)
Definition runCheck_call (cond : positive) (condFunc : string) (negation : bool) : St bool :=
  c ← load cond;
  vals ← lift (reflect_Call (MethodByName E condFunc) c);
  lift (verdict condFunc negation vals).

(** Lines 112 to 154: [runCheck] after the two calls that open it. *)
Definition runCheck_body (cond : positive) : St bool :=
  c ← load cond;
  lift (debug [AStr ("Running condition:" ++ newline); ACond c]) ;;
  let regex := "Regex" in
  store cond (set_regex false c) ;;
  c ← load cond;
  if Nat.leb (String.length (Type_ c)) (String.length regex) then
    lift (fail E [AStr ("Condition type " ++ dquote ++ Type_ c ++ dquote ++
                        " is not long enough to be valid. Do you have a " ++
                        dquote ++ "type = 'CheckTypeHere'" ++ dquote ++
                        " for all check conditions?")]) ;;
    mret false
  else
    let '(condFunc, negation, rx) := resolveModifiers (Type_ c) in
    (if rx then store cond (set_regex true c) else mret tt) ;;
    defer_recovering (fun r => lift (handleReflectPanic E condFunc r)) false
      (runCheck_call cond condFunc negation).

(** Lines 108 to 154, the whole body of [runCheck]; [cond] is the
    address of the parameter of that name. *)
Definition runCheck_at (cond : positive) : St bool :=
  err ← deobfuscateCond_at cond;
  (if notNil err then lift (fail E [AStr (error_text err)]) else mret tt) ;;
  defer (obfuscateCond_at cond ;; mret tt) (runCheck_body cond).

(** The call [runCheck(arg)]: the parameter is a variable of its own
    that starts as a copy of the argument. *)
Definition runCheck (arg : cond) : St bool :=
  cond ← new_var arg;
  runCheck_at cond.

End Dispatch.

(** ** A small host to run the checks on *)

Module Host.

(** ASCII white space, the part of [strings.TrimSpace] this host needs. *)
Definition asciiSpace (a : ascii) : bool :=
  let n := nat_of_ascii a in
  Nat.eqb n 9 || Nat.eqb n 10 || Nat.eqb n 11 || Nat.eqb n 12 || Nat.eqb n 13 || Nat.eqb n 32.

Fixpoint trimLeft (s : string) : string :=
  match s with
  | EmptyString => EmptyString
  | String a s' => if asciiSpace a then trimLeft s' else s
  end.

Fixpoint trimRight (s : string) : string :=
  match s with
  | EmptyString => EmptyString
  | String a s' =>
      match trimRight s' with
      | EmptyString => if asciiSpace a then EmptyString else String a EmptyString
      | t => String a t
      end
  end.

Definition trimSpace (s : string) : string := trimRight (trimLeft s).

Definition noSuchFile (path : string) : error :=
  mkError ErrNotExist ("stat " +:+ path +:+ ": no such file or directory").

Definition denied (path : string) : error :=
  mkError ErrPermission ("open " +:+ path +:+ ": permission denied").

Definition exitStatus1 : error := mkError ErrOther "exit status 1".

Definition badPattern : error :=
  mkError ErrOther "error parsing regexp: missing closing ]".

(** The commands this host knows. *)
Definition shell (cmd : string) : string * option error :=
  if String.eqb cmd "hostname" then ("box" +:+ newline, None)
  else if String.eqb cmd "version" then ("  v1.2.3" +:+ newline, None)
  else if String.eqb cmd "false" then ("", Some exitStatus1)
  else ("sh: not found" +:+ newline, Some (mkError ErrOther "exit status 127")).

(** Its files: [/srv/a] cannot be read, [/srv/b] holds the secret. *)
Definition files (path : string) : string * option error :=
  if String.eqb path "/etc/motd"
  then ("welcome" +:+ newline +:+ "ERROR: disk full" +:+ newline, None)
  else if String.eqb path "/srv/a" then ("", Some (denied path))
  else if String.eqb path "/srv/b" then ("the secret" +:+ newline, None)
  else if String.eqb path "/big/f" then ("the secret", None)
  else ("", Some (mkError ErrNotExist ("open " +:+ path +:+ ": no such file or directory"))).

Definition stat (path : string) : option error :=
  if existsb (String.eqb path) ["/etc"; "/etc/motd"; "/srv"; "/srv/a"; "/srv/b"; "/big"; "/big/f"]
  then None else Some (noSuchFile path).

Definition dir (path : string) : visit := mkVisit path (Some (mkFileInfo true)) None.
Definition file (path : string) : visit := mkVisit path (Some (mkFileInfo false)) None.

(** [/big] holds 10,001 files, all called [f] here. *)
Definition tree (root : string) : list visit :=
  if String.eqb root "/srv" then [dir "/srv"; file "/srv/a"; file "/srv/b"]
  else if String.eqb root "/etc" then [dir "/etc"; file "/etc/motd"]
  else if String.eqb root "/big" then dir "/big" :: repeat (file "/big/f") (N.to_nat 10001)
  else [mkVisit root None (Some (noSuchFile root))].

(** Patterns without metacharacters, which match where they occur; an
    opening bracket alone is a syntax error. *)
Definition compile (pattern : string) : (string -> bool) + error :=
  if String.eqb pattern "[" then inr badPattern
  else inl (fun b => strings_Contains b pattern).

(** The obfuscation of this host reverses [Value]. *)
Definition flipValue (c : cond) : cond * option error :=
  (mkCond (Hint c) (Type_ c) (Path c) (Cmd c) (User c) (Group c) (Name c) (Key c)
          (String.rev (Value c)) (After c) (regex c), None).

Definition env (exits : bool) : Env :=
  mkEnv exits true shell files stat tree compile trimSpace (fun s => s)
        flipValue flipValue (fun _ => None).

(** A condition of type [t] on [path] and [value], the rest empty. *)
Definition on_path (t path value : string) : cond :=
  mkCond "" t path "" "" "" "" "" value "" false.

(** A condition of type [t] on [cmd] and [value], the rest empty. *)
Definition on_cmd (t cmd value : string) : cond :=
  mkCond "" t "" cmd "" "" "" "" value "" false.

End Host.

(** ** The vocabulary of the specification *)

#[global] Instance errKind_eq_dec : EqDecision errKind.
Proof. solve_decision. Defined.
#[global] Instance error_eq_dec : EqDecision error.
Proof. solve_decision. Defined.
#[global] Instance cond_eq_dec : EqDecision cond.
Proof. solve_decision. Defined.
#[global] Instance rvalue_eq_dec : EqDecision rvalue.
Proof. solve_decision. Defined.
#[global] Instance logArg_eq_dec : EqDecision logArg.
Proof. solve_decision. Defined.
#[global] Instance event_eq_dec : EqDecision event.
Proof. solve_decision. Defined.

(** How often [ev] occurs in a log. *)
Definition occurrences (ev : event) (evs : list event) : nat :=
  length (filter (fun ev' => ev' = ev) evs).

(** The error of a walk that met more than 10,000 files. *)
Definition too_many : error :=
  errors_New "attempted to index too many files in recursive search".

(** The files one entry of a walk adds to the slice. *)
Definition entry_files (v : visit) : list string :=
  match visit_info v with
  | Some info => if IsDir info then [] else [visit_path v]
  | None => []
  end.

Section Vocabulary.

Variable E : Env.

(** Argument validation lets the predicate go on. *)
Definition validates (c : cond) (args : list string) : Prop :=
  snd (requireArgs E c args) = Ret tt.

(** The parameter slots of a condition, in the order of the struct:
    the fields other than [Type], [Hint] and [regex]. *)
Definition slots (c : cond) : list (string * string) :=
  [ ("Path", Path c); ("Cmd", Cmd c); ("User", User c); ("Group", Group c);
    ("Name", Name c); ("Key", Key c); ("Value", Value c); ("After", After c) ].

Definition is_required (args : list string) (name : string) : bool :=
  existsb (String.eqb name) args.

(** The fatal failure for a missing slot and the warning for an unused
    one, both naming the condition type and the slot. *)
Definition missing (cType name : string) : event :=
  EvFail [AStr (cType ++ ":"); AStr ("missing required argument '" ++ name ++ "'")].

Definition unused (cType name : string) : event :=
  EvWarn [AStr (cType ++ ":"); AStr ("specifying unused argument '" ++ name ++ "'")].

(** What the specification asks for one slot. *)
Definition slot_reaction (cType : string) (args : list string)
           (slot : string * string) : list event :=
  let '(name, v) := slot in
  if is_required args name
  then (if String.eqb v "" then [missing cType name] else [])
  else (if String.eqb v "" then [] else [unused cType name]).

Definition validation_events (c : cond) (args : list string) : list event :=
  flat_map (slot_reaction (Type_ c) args) (slots c).

(** Emitting [evs] through the logging collaborator: when [fail]
    terminates the process, nothing follows the first failure. *)
Fixpoint emit (evs : list event) : L unit :=
  match evs with
  | [] => ([], Ret tt)
  | EvFail args :: rest =>
      if fail_exits E then ([EvFail args], Exit)
      else let '(evs', o) := emit rest in (EvFail args :: evs', o)
  | ev :: rest => let '(evs', o) := emit rest in (ev :: evs', o)
  end.

(** The walk below [root] meets no entry it could not stat. *)
Definition walk_sound (root : string) : Prop :=
  Forall (fun v => visit_info v <> None) (walk_visits E root).

(** The paths of the entries below [root] that are not directories. *)
Definition walked_files (root : string) : list string :=
  flat_map entry_files (walk_visits E root).

(** The search of [FileContains] in [file], with the value and the
    regex flag of [c], finds the value. *)
Definition file_contains (c : cond) (file : string) : Prop :=
  result (FileContains E (set_Path c file)) = Some (true, None).

(** The search in [file] returns and its error, if any, is not a
    permission error. *)
Definition file_passable (c : cond) (file : string) : Prop :=
  exists r err, result (FileContains E (set_Path c file)) = Some (r, err)
                /\ os_IsPermission err = false.

(** The search in [file] returns an error that is not a permission error. *)
Definition file_fails (c : cond) (file : string) : Prop :=
  exists r e, result (FileContains E (set_Path c file)) = Some (r, Some e)
              /\ os_IsPermission (Some e) = false.

(** The sentence of the specification on a directory with one matching
    file, as it is written. *)
Definition finds_the_matching_file (c : cond) : Prop :=
  validates c ["Path"; "Value"] ->
  os_Stat E (Path c) = None ->
  walk_sound (Path c) ->
  (Z.of_nat (length (walked_files (Path c))) <= 10000)%Z ->
  (exists f, In f (walked_files (Path c)) /\ file_contains c f
             /\ forall g, In g (walked_files (Path c)) -> file_contains c g -> g = f) ->
  result (DirContains E c) = Some (true, None).

End Vocabulary.

(** ** Reasoning about variables *)

(** Started in a store where [p] holds [c], [m] returns [a] and leaves
    [c'] in [p]. *)
Definition returns_with {A : Type} (p : positive) (c : cond) (m : St A)
           (a : A) (c' : cond) : Prop :=
  forall σ : gmap positive cond, σ !! p = Some c ->
    exists σ' evs, m σ = (σ', (evs, Ret a)) /\ σ' !! p = Some c'.

(** Started in a store where [p] holds a condition that satisfies [P],
    [m] ends with an outcome and a content of [p] that satisfy [Q]. *)
Definition hoare {A : Type} (p : positive) (P : cond -> Prop) (m : St A)
           (Q : outcome A -> cond -> Prop) : Prop :=
  forall (σ : gmap positive cond) (c : cond), σ !! p = Some c -> P c ->
    exists c', fst (m σ) !! p = Some c' /\ Q (snd (snd (m σ))) c'.

(** [c'] is [c] but for the regex flag. *)
Definition flagged (c c' : cond) : Prop := exists b, c' = set_regex b c.

(** However [m] ends, it has written no variable but [p]. *)
Definition writes_only {A : Type} (p : positive) (m : St A) : Prop :=
  forall (σ : gmap positive cond) (l : positive), l <> p -> fst (m σ) !! l = σ !! l.

(** ** Further vocabulary *)

(** The line [String] writes for the field [regex], whose string form
    is a placeholder. *)
Definition regex_line : string :=
  String (ascii_of_nat 9) ("regex: <bool Value>" ++ newline).

(** The ten string fields of a condition are all empty. *)
Definition all_empty (c : cond) : Prop :=
  Hint c = "" /\ Type_ c = "" /\ Forall (fun slot => snd slot = "") (slots c).

(** ** What [runCheck] logs *)

(** The message of [runCheck] for a condition type that is too short. *)
Definition too_short (t : string) : string :=
  "Condition type " ++ dquote ++ t ++ dquote ++
  " is not long enough to be valid. Do you have a " ++
  dquote ++ "type = 'CheckTypeHere'" ++ dquote ++ " for all check conditions?".

(** [defer_recovering] read on the log and the outcome of the body,
    for a handler that leaves the store alone. *)
Definition recovered {A : Type} (h : option panicValue -> L unit) (zero : A)
           (r : L A) : L A :=
  match r with
  | (evs, Exit) => (evs, Exit)
  | (evs, Ret a) =>
      match h None with
      | (evs', Ret _) => (evs ++ evs', Ret a)
      | (evs', Panic q) => (evs ++ evs', Panic q)
      | (evs', Exit) => (evs ++ evs', Exit)
      end
  | (evs, Panic p) =>
      match h (Some p) with
      | (evs', Ret _) => (evs ++ evs', Ret zero)
      | (evs', Panic q) => (evs ++ evs', Panic q)
      | (evs', Exit) => (evs ++ evs', Exit)
      end
  end.

Section RunCheckLog.

Variable E : Env.

(** The call by name and the verdict, on the condition [c]. *)
Definition runCheck_call_log (c : cond) (condFunc : string) (negation : bool) : L bool :=
  vals ← reflect_Call (MethodByName E condFunc) c;
  verdict E condFunc negation vals.

(** [runCheck_body], the store forgotten: what it logs and how it
    ends when its parameter holds [c1]. *)
Definition runCheck_body_log (c1 : cond) : L bool :=
  debug [AStr ("Running condition:" ++ newline); ACond c1] ;;
  let c := set_regex false c1 in
  if Nat.leb (String.length (Type_ c)) (String.length "Regex") then
    fail E [AStr (too_short (Type_ c))] ;; mret false
  else
    let '(condFunc, negation, rx) := resolveModifiers (Type_ c) in
    recovered (handleReflectPanic E condFunc) false
              (runCheck_call_log (set_regex rx c) condFunc negation).

(** [runCheck], the store forgotten. *)
Definition runCheck_log (arg : cond) : L bool :=
  (if notNil (snd (deobfuscateCond E arg))
   then fail E [AStr (error_text (snd (deobfuscateCond E arg)))]
   else mret tt) ;;
  runCheck_body_log (fst (deobfuscateCond E arg)).

End RunCheckLog.

(** The line of [debug] that opens every run. *)
Definition running (c : cond) : event :=
  EvDebug [AStr ("Running condition:" ++ newline); ACond c].

(** Started in a store where [p] holds [c], [m] logs and ends as [r]
    says, and [p] still holds a condition: [c'], if [m] has returned. *)
Definition runs {A : Type} (p : positive) (c : cond) (m : St A) (r : L A)
           (c' : cond) : Prop :=
  forall σ : gmap positive cond, σ !! p = Some c ->
    snd (m σ) = r /\
    exists c'', fst (m σ) !! p = Some c'' /\ (forall a, snd r = Ret a -> c'' = c').

(** The same, the final content of [p] left open. *)
Definition logs {A : Type} (p : positive) (c : cond) (m : St A) (r : L A) : Prop :=
  forall σ : gmap positive cond, σ !! p = Some c ->
    snd (m σ) = r /\ is_Some (fst (m σ) !! p).

(** * Properties *)

(** ** The logging monad *)

Lemma L_bind_unfold {A B : Type} (f : A -> L B) (m : L A) :
  m ≫= f = match m with
           | (evs, Ret a) => (evs ++ fst (f a), snd (f a))
           | (evs, Panic p) => (evs, Panic p)
           | (evs, Exit) => (evs, Exit)
           end.
Proof.
  destruct m as [evs [a|p|]]; try reflexivity.
  unfold mbind, L_bind. destruct (f a); reflexivity.
Qed.

Lemma result_bind {A B : Type} (f : A -> L B) (m : L A) :
  result (m ≫= f) = match result m with
                    | Some a => result (f a)
                    | None => None
                    end.
Proof.
  rewrite L_bind_unfold. destruct m as [evs [a|p|]]; reflexivity.
Qed.

Lemma result_mret {A : Type} (a : A) : result (mret a : L A) = Some a.
Proof. reflexivity. Qed.

Section Validation.

Variable E : Env.

Lemma result_validated {A : Type} (c : cond) (args : list string) (k : L A) :
  validates E c args -> result (requireArgs E c args ;; k) = result k.
Proof.
  unfold validates. intros Hv. rewrite result_bind. unfold result at 1.
  rewrite Hv. reflexivity.
Qed.

End Validation.

(** ** Argument validation *)

Lemma L_bind_mret_l {A B : Type} (a : A) (f : A -> L B) : mret a ≫= f = f a.
Proof. unfold mbind, L_bind, mret, L_ret. destruct (f a); reflexivity. Qed.

Lemma append_inj_l (s a b : string) : (s ++ a = s ++ b)%string -> a = b.
Proof. induction s as [|x s IH]; simpl; [tauto | intros [= H]; auto]. Qed.

Lemma length_append (a b : string) :
  String.length (a ++ b) = String.length a + String.length b.
Proof. induction a as [|x a IH]; simpl; [reflexivity | rewrite IH; reflexivity]. Qed.

Lemma append_inj_r (a b t : string) :
  String.length t = 1 -> (a ++ t = b ++ t)%string -> a = b.
Proof.
  intros Ht. revert b.
  induction a as [|x a IH]; intros [|y b]; intros H; try reflexivity.
  - apply (f_equal String.length) in H.
    rewrite !length_append in H. simpl in H. lia.
  - apply (f_equal String.length) in H.
    rewrite !length_append in H. simpl in H. lia.
  - cbn in H. injection H as -> H. f_equal. auto.
Qed.

Lemma missing_inj (t n n' : string) : missing t n = missing t n' -> n = n'.
Proof.
  unfold missing. intros [= H]. apply append_inj_l in H.
  apply append_inj_r in H; auto.
Qed.

Lemma unused_inj (t n n' : string) : unused t n = unused t n' -> n = n'.
Proof.
  unfold unused. intros [= H]. apply append_inj_l in H.
  apply append_inj_r in H; auto.
Qed.

Lemma occurrences_app (ev : event) (l1 l2 : list event) :
  occurrences ev (l1 ++ l2) = occurrences ev l1 + occurrences ev l2.
Proof. unfold occurrences. rewrite filter_app, length_app. reflexivity. Qed.

Lemma occurrences_cons (ev ev' : event) (l : list event) :
  occurrences ev (ev' :: l) = (if decide (ev' = ev) then 1 else 0) + occurrences ev l.
Proof. unfold occurrences. rewrite filter_cons. destruct (decide (ev' = ev)); reflexivity. Qed.

(** A slot list in which [name] does not occur says nothing about it. *)
Lemma reaction_other_slots (t : string) (args : list string) (name : string)
      (sl : list (string * string)) :
  ~ In name (map fst sl) ->
  occurrences (missing t name) (flat_map (slot_reaction t args) sl) = 0 /\
  occurrences (unused t name) (flat_map (slot_reaction t args) sl) = 0.
Proof.
  induction sl as [|[n v] sl IH]; simpl; intros Hn; [split; reflexivity|].
  destruct IH as [IHm IHu]; [tauto|].
  assert (n <> name) by tauto.
  rewrite !occurrences_app, IHm, IHu.
  destruct (is_required args n), (String.eqb v ""); simpl;
    rewrite ?occurrences_cons; unfold occurrences; simpl; split; try reflexivity;
    case_decide as Heq; try reflexivity; try discriminate;
    first [apply missing_inj in Heq | apply unused_inj in Heq]; congruence.
Qed.

(** Each slot is answered exactly once, by the event the specification
    names for it. *)
Lemma reaction_once (t : string) (args : list string) (name v : string)
      (sl : list (string * string)) :
  NoDup (map fst sl) -> In (name, v) sl ->
  (is_required args name = true -> v = "" ->
   occurrences (missing t name) (flat_map (slot_reaction t args) sl) = 1) /\
  (is_required args name = false -> v <> "" ->
   occurrences (unused t name) (flat_map (slot_reaction t args) sl) = 1).
Proof.
  induction sl as [|[n w] sl IH]; [simpl; tauto|].
  cbn [map fst flat_map]. intros Hnd Hin.
  apply NoDup_cons in Hnd as [Hfresh Hnd].
  rewrite list_elem_of_In in Hfresh.
  rewrite !occurrences_app.
  destruct Hin as [[= -> ->] | Hin].
  - destruct (reaction_other_slots t args name sl Hfresh) as [-> ->].
    unfold slot_reaction.
    split; intros Hreq Hv; rewrite Hreq.
    + subst v. simpl. rewrite occurrences_cons. rewrite decide_True by reflexivity.
      reflexivity.
    + apply String.eqb_neq in Hv. rewrite Hv, occurrences_cons.
      rewrite decide_True by reflexivity. reflexivity.
  - assert (n <> name) as Hne.
    { intros ->. apply Hfresh. apply in_map_iff. exists (name, v); auto. }
    specialize (IH Hnd Hin). destruct IH as [IHm IHu].
    assert (occurrences (missing t name) (slot_reaction t args (n, w)) = 0 /\
            occurrences (unused t name) (slot_reaction t args (n, w)) = 0) as [Hm Hu].
    { pose proof (reaction_other_slots t args name [(n, w)]) as H.
      cbn [map fst flat_map] in H. rewrite app_nil_r in H. apply H.
      simpl. tauto. }
    rewrite Hm, Hu. split; intros; simpl; auto.
Qed.

Section ArgumentValidation.

Variable E : Env.

Lemma emit_returns (evs : list event) :
  fail_exits E = false -> emit E evs = (evs, Ret tt).
Proof.
  intros Hx. induction evs as [|[a|a|a] evs IH]; simpl; rewrite ?Hx, ?IH; reflexivity.
Qed.

Lemma emit_app_silent (evs : list event) (rest : list event) (m : L unit) :
  m = emit E evs -> (m ;; emit E rest) = emit E (evs ++ rest).
Proof.
  intros ->. induction evs as [|ev evs IH]; simpl.
  - apply L_bind_mret_l.
  - rewrite <- IH. rewrite !L_bind_unfold.
    destruct ev as [a|a|a]; destruct (emit E evs) as [l [[]|p|]]; simpl;
      try destruct (fail_exits E); reflexivity.
Qed.

(** The loop of [requireArgs] answers each field that is a slot and
    passes over [Type], [regex] and [Hint]. *)
Lemma requireArgs_loop_emit (t : string) (args : list string)
      (fields : list (string * rvalue)) :
  requireArgs_loop E t args fields
  = emit E (flat_map
              (fun f => if String.eqb (fst f) "Type" || String.eqb (fst f) "regex"
                           || String.eqb (fst f) "Hint"
                        then []
                        else slot_reaction t args (fst f, rvalue_String (snd f)))
              fields).
Proof.
  induction fields as [|[n v] fields IH]; [reflexivity|].
  cbn [requireArgs_loop flat_map fst snd].
  rewrite IH. apply emit_app_silent.
  unfold requireArgs_field, slot_reaction.
  destruct (String.eqb n "Type" || String.eqb n "regex"); [reflexivity|].
  cbn [orb]. destruct (String.eqb n "Hint"); [reflexivity|].
  fold (is_required args n).
  destruct (is_required args n), (String.eqb (rvalue_String v) ""); simpl; try reflexivity.
  unfold fail. destruct (fail_exits E); reflexivity.
Qed.

Lemma requireArgs_by_slot (c : cond) (args : list string) :
  Type_ c <> "" -> requireArgs E c args = emit E (validation_events c args).
Proof.
  intros Ht. unfold requireArgs. apply String.eqb_neq in Ht. rewrite Ht.
  rewrite requireArgs_loop_emit. reflexivity.
Qed.

Lemma requireArgs_internal (c : cond) (args : list string) :
  Type_ c = "" -> requireArgs E c args = ([], Ret tt).
Proof. intros Ht. unfold requireArgs. rewrite Ht. reflexivity. Qed.

Lemma slots_distinct (c : cond) : NoDup (map fst (slots c)).
Proof. apply (bool_decide_unpack _). vm_compute. reflexivity. Qed.

(** Validation never panics: it returns, or the process is gone. *)
Lemma emit_outcome (evs : list event) :
  snd (emit E evs) = Ret tt \/ (snd (emit E evs) = Exit /\ fail_exits E = true).
Proof.
  induction evs as [|[a|a|a] evs IH]; simpl; auto;
    try (destruct (emit E evs); simpl in *; tauto).
  destruct (fail_exits E); [right; auto|].
  destruct (emit E evs); simpl in *; tauto.
Qed.

Lemma requireArgs_outcome (c : cond) (args : list string) :
  validates E c args \/ (snd (requireArgs E c args) = Exit /\ fail_exits E = true).
Proof.
  unfold validates. destruct (String.eqb_spec (Type_ c) "") as [Ht|Ht].
  - rewrite requireArgs_internal; auto.
  - rewrite requireArgs_by_slot by assumption. apply emit_outcome.
Qed.

(** Where [fail] returns, validation lets every predicate go on. *)
Lemma validates_when_fail_returns (c : cond) (args : list string) :
  fail_exits E = false -> validates E c args.
Proof.
  intros Hx. destruct (requireArgs_outcome c args) as [H|[_ H]]; [assumption|congruence].
Qed.

(** An internal call, with an empty [Type], is not validated at all. *)
Lemma validates_internal (c : cond) (args : list string) :
  Type_ c = "" -> validates E c args.
Proof. intros Ht. unfold validates. rewrite requireArgs_internal; auto. Qed.

(** Where [fail] terminates the process, a failure in the log is the
    end of it. *)
Lemma emit_exits (evs : list event) (a : list logArg) :
  fail_exits E = true -> In (EvFail a) evs -> snd (emit E evs) = Exit.
Proof.
  intros Hx. induction evs as [|ev evs IH]; [intros []|].
  intros Hin. cbn [emit].
  destruct ev as [a'|a'|a']; rewrite ?Hx; [reflexivity| |];
    (destruct Hin as [[=]|Hin]; specialize (IH Hin);
     destruct (emit E evs); exact IH).
Qed.

Lemma emit_silent (evs : list event) :
  Forall (fun ev => forall a, ev <> EvFail a) evs -> emit E evs = (evs, Ret tt).
Proof.
  induction 1 as [|ev evs Hev _ IH]; [reflexivity|]. cbn [emit].
  rewrite IH. destruct ev as [a|a|a]; [destruct (Hev a eq_refl)|reflexivity|reflexivity].
Qed.

(** A condition that has all its required slots passes validation,
    whatever [fail] does. *)
Lemma validates_complete (c : cond) (args : list string) :
  (forall name v, In (name, v) (slots c) -> is_required args name = true -> v <> "") ->
  validates E c args.
Proof.
  intros Hall. unfold validates.
  destruct (String.eqb_spec (Type_ c) "") as [Ht|Ht];
    [rewrite requireArgs_internal by assumption; reflexivity|].
  rewrite requireArgs_by_slot by assumption.
  rewrite emit_silent; [reflexivity|].
  unfold validation_events. apply Forall_forall. intros ev Hev.
  rewrite list_elem_of_In in Hev. apply in_flat_map in Hev as ([name v] & Hin & Hev).
  unfold slot_reaction in Hev. destruct (is_required args name) eqn:Hreq.
  - specialize (Hall name v Hin Hreq). apply String.eqb_neq in Hall.
    rewrite Hall in Hev. destruct Hev.
  - destruct (String.eqb v ""); [destruct Hev|].
    destruct Hev as [<-|[]]. discriminate.
Qed.

(** A required slot left empty is reported. *)
Lemma missing_reported (c : cond) (args : list string) (name v : string) :
  In (name, v) (slots c) -> is_required args name = true -> v = "" ->
  In (missing (Type_ c) name) (validation_events c args).
Proof.
  intros Hin Hreq ->. unfold validation_events. apply in_flat_map.
  exists (name, ""). split; [assumption|].
  unfold slot_reaction. rewrite Hreq. left. reflexivity.
Qed.

End ArgumentValidation.

(** C8. Argument validation.  A condition with an empty [Type] is not
    validated at all.  Otherwise [requireArgs] goes through the
    parameter slots, every field but [Type], [Hint] and [regex], in
    the order of the struct: a slot that is required and empty calls
    [fail] with the condition type and the slot name, a slot that is
    not required and not empty calls [warn] with them, and any other
    slot is passed in silence; where [fail] terminates the process
    nothing follows the first failure.  So, where [fail] returns, each
    missing slot is reported by exactly one failure and each unused
    slot by exactly one warning; and where [fail] terminates the
    process, a missing slot ends the run. *)
Theorem requireArgs_validation (E : Env) (c : cond) (args : list string) :
  (Type_ c = "" -> requireArgs E c args = ([], Ret tt)) /\
  (Type_ c <> "" ->
   requireArgs E c args = emit E (validation_events c args) /\
   forall name v, In (name, v) (slots c) ->
     (fail_exits E = false -> is_required args name = true -> v = "" ->
      occurrences (missing (Type_ c) name) (events (requireArgs E c args)) = 1) /\
     (fail_exits E = false -> is_required args name = false -> v <> "" ->
      occurrences (unused (Type_ c) name) (events (requireArgs E c args)) = 1) /\
     (fail_exits E = true -> is_required args name = true -> v = "" ->
      snd (requireArgs E c args) = Exit)).
Proof.
  split; [apply requireArgs_internal|].
  intros Ht. split; [apply requireArgs_by_slot; assumption|].
  intros name v Hin.
  pose proof (reaction_once (Type_ c) args name v (slots c) (slots_distinct c) Hin)
    as [Hmissing Hunused].
  repeat split.
  - intros Hx. rewrite requireArgs_by_slot, emit_returns by assumption. exact Hmissing.
  - intros Hx. rewrite requireArgs_by_slot, emit_returns by assumption. exact Hunused.
  - intros Hx Hreq Hv. rewrite requireArgs_by_slot by assumption.
    apply (emit_exits E _ _ Hx (missing_reported c args name v Hin Hreq Hv)).
Qed.

Lemma requireArgs_validation_witness :
  let c := Host.on_path "PathExists" "" "x" in
  requireArgs (Host.env false) cond_zero ["Path"] = ([], Ret tt) /\
  requireArgs (Host.env true) c ["Path"] = ([missing "PathExists" "Path"], Exit) /\
  occurrences (missing "PathExists" "Path") (events (requireArgs (Host.env false) c ["Path"])) = 1 /\
  occurrences (unused "PathExists" "Value") (events (requireArgs (Host.env false) c ["Path"])) = 1 /\
  snd (requireArgs (Host.env true) c ["Path"]) = Exit.
Proof.
  intros c.
  split; [apply (requireArgs_validation (Host.env false) cond_zero ["Path"]); reflexivity|].
  destruct (requireArgs_validation (Host.env true) c ["Path"]) as [_ Ht].
  destruct Ht as [Heq Hexit]; [discriminate|].
  split; [rewrite Heq; reflexivity|].
  destruct (requireArgs_validation (Host.env false) c ["Path"]) as [_ Hf].
  destruct Hf as [_ Hslots]; [discriminate|].
  split; [|split].
  - apply (Hslots "Path" ""); [simpl; auto | reflexivity | reflexivity | reflexivity].
  - apply (Hslots "Value" "x"); [simpl; tauto | reflexivity | reflexivity | discriminate].
  - apply (Hexit "Path" ""); [simpl; auto | reflexivity | reflexivity | reflexivity].
Defined.

(** ** The predicates *)

Section Predicates.

Variable E : Env.

(** C3. [CommandOutput] compares the trimmed output of the command
    with [Value] and returns that boolean together with the error of
    the command, whether the command failed or not. *)
Theorem CommandOutput_reports_both (c : cond) :
  validates E c ["Cmd"; "Value"] ->
  result (CommandOutput E c)
  = Some (String.eqb (strings_TrimSpace E (fst (shellCommandOutput E (Cmd c)))) (Value c),
          snd (shellCommandOutput E (Cmd c))).
Proof.
  intros Hv. unfold CommandOutput. rewrite result_validated by assumption.
  destruct (shellCommandOutput E (Cmd c)) as [out err]. reflexivity.
Qed.

(** C5. [PathExists] answers [(false, nil)] when [os.Stat] reports
    that the path does not exist, [(true, nil)] when [os.Stat]
    succeeds, and [(false, err)] for any other error of [os.Stat]. *)
Theorem PathExists_answers (c : cond) :
  validates E c ["Path"] ->
  (os_IsNotExist (os_Stat E (Path c)) = true ->
   result (PathExists E c) = Some (false, None)) /\
  (os_Stat E (Path c) = None ->
   result (PathExists E c) = Some (true, None)) /\
  (forall e, os_Stat E (Path c) = Some e -> os_IsNotExist (Some e) = false ->
   result (PathExists E c) = Some (false, Some e)).
Proof.
  intros Hv. unfold PathExists. rewrite result_validated by assumption.
  repeat split.
  - intros Hne. rewrite Hne. destruct (os_Stat E (Path c)); [reflexivity|discriminate].
  - intros ->. reflexivity.
  - intros e -> Hne. rewrite Hne. reflexivity.
Qed.

(** C6. [CommandContains] returns [(false, err)] as soon as the
    command fails; otherwise it trims the output and returns whether
    it contains [Value], or, with the regex flag, what matching
    [Value] as a regular expression against it gives. *)
Theorem CommandContains_answers (c : cond) :
  validates E c ["Cmd"; "Value"] ->
  let out := fst (shellCommandOutput E (Cmd c)) in
  let err := snd (shellCommandOutput E (Cmd c)) in
  (err <> None -> result (CommandContains E c) = Some (false, err)) /\
  (err = None -> regex c = false ->
   result (CommandContains E c)
   = Some (strings_Contains (strings_TrimSpace E out) (Value c), None)) /\
  (err = None -> regex c = true ->
   result (CommandContains E c)
   = Some (regexp_Match E (Value c) (strings_TrimSpace E out))).
Proof.
  intros Hv. unfold CommandContains. rewrite result_validated by assumption.
  destruct (shellCommandOutput E (Cmd c)) as [out err]. simpl.
  repeat split.
  - destruct err; [reflexivity|congruence].
  - intros -> ->. reflexivity.
  - intros -> ->. reflexivity.
Qed.

End Predicates.

Lemma CommandOutput_reports_both_witness :
  let c := Host.on_cmd "CommandOutput" "false" "" in
  validates (Host.env false) c ["Cmd"; "Value"] /\
  result (CommandOutput (Host.env false) c) = Some (true, Some Host.exitStatus1).
Proof.
  intros c. assert (validates (Host.env false) c ["Cmd"; "Value"]) as Hv by reflexivity.
  split; [exact Hv|].
  exact (CommandOutput_reports_both (Host.env false) c Hv).
Defined.

Lemma PathExists_answers_witness :
  validates (Host.env true) (Host.on_path "PathExists" "/nowhere" "") ["Path"] /\
  result (PathExists (Host.env true) (Host.on_path "PathExists" "/nowhere" "")) = Some (false, None) /\
  result (PathExists (Host.env true) (Host.on_path "PathExists" "/etc/motd" "")) = Some (true, None).
Proof.
  split; [reflexivity|]. split.
  - apply (PathExists_answers (Host.env true) (Host.on_path "PathExists" "/nowhere" ""));
      reflexivity.
  - apply (PathExists_answers (Host.env true) (Host.on_path "PathExists" "/etc/motd" ""));
      reflexivity.
Defined.

Lemma CommandContains_answers_witness :
  validates (Host.env true) (Host.on_cmd "CommandContains" "false" "x") ["Cmd"; "Value"] /\
  result (CommandContains (Host.env true) (Host.on_cmd "CommandContains" "false" "x"))
  = Some (false, Some Host.exitStatus1) /\
  result (CommandContains (Host.env true) (Host.on_cmd "CommandContains" "version" "1.2"))
  = Some (true, None) /\
  result (CommandContains (Host.env true) (Host.on_cmd "CommandContains" "version" "9.9"))
  = Some (false, None).
Proof.
  split; [reflexivity|]. split; [|split].
  - destruct (CommandContains_answers (Host.env true)
                (Host.on_cmd "CommandContains" "false" "x")) as (H & _ & _);
      [reflexivity|]. apply H. discriminate.
  - destruct (CommandContains_answers (Host.env true)
                (Host.on_cmd "CommandContains" "version" "1.2")) as (_ & H & _);
      [reflexivity|]. apply H; reflexivity.
  - destruct (CommandContains_answers (Host.env true)
                (Host.on_cmd "CommandContains" "version" "9.9")) as (_ & H & _);
      [reflexivity|]. apply H; reflexivity.
Defined.

(** ** Searching a file *)

Lemma split_from_nonempty (sep : string) (skip : nat) (s : string) :
  split_from sep skip s <> [].
Proof.
  revert skip. induction s as [|a s IH]; intros skip; cbn [split_from]; [done|].
  destruct skip; [|apply IH].
  destruct (String.prefix sep (String a s)); [done|].
  destruct (split_from sep 0 s); done.
Qed.

Lemma strings_Split_nonempty (s sep : string) : strings_Split s sep <> [].
Proof. apply split_from_nonempty. Qed.

Section FileSearch.

Variable E : Env.

Lemma FileContains_loop_plain (c : cond) (lines : list string) :
  regex c = false ->
  FileContains_loop E c lines false None
  = (existsb (fun line => strings_Contains line (Value c)) lines, None).
Proof.
  intros Hr. induction lines as [|line lines IH]; simpl; [reflexivity|].
  rewrite Hr. destruct (strings_Contains line (Value c)); [reflexivity|apply IH].
Qed.

Lemma FileContains_loop_regex (c : cond) (re : string -> bool) (lines : list string) :
  regex c = true -> regexp_Compile E (Value c) = inl re ->
  FileContains_loop E c lines false None = (existsb re lines, None).
Proof.
  intros Hr Hc. induction lines as [|line lines IH]; simpl; [reflexivity|].
  rewrite Hr. unfold regexp_Match. rewrite Hc. simpl.
  destruct (re line); [reflexivity|apply IH].
Qed.

Lemma FileContains_loop_malformed (c : cond) (e : error) (lines : list string) :
  regex c = true -> regexp_Compile E (Value c) = inr e -> lines <> [] ->
  FileContains_loop E c lines false None = (false, Some e).
Proof.
  intros Hr Hc Hl. destruct lines as [|line lines]; [congruence|]. simpl.
  rewrite Hr. unfold regexp_Match. rewrite Hc. reflexivity.
Qed.

(** C7. [FileContains] reads the whole file and splits it into lines.
    A read error is returned with [false].  Otherwise the answer is
    [true] exactly when some line contains [Value], without the regex
    flag, or is matched by [Value] compiled as a regular expression,
    with it; a [Value] that does not compile is returned as the error,
    with [false]. *)
Theorem FileContains_answers (c : cond) :
  validates E c ["Path"; "Value"] ->
  let lines := strings_Split (fst (readFile E (Path c))) newline in
  (forall e, snd (readFile E (Path c)) = Some e ->
   result (FileContains E c) = Some (false, Some e)) /\
  (snd (readFile E (Path c)) = None -> regex c = false ->
   result (FileContains E c)
   = Some (existsb (fun line => strings_Contains line (Value c)) lines, None)) /\
  (snd (readFile E (Path c)) = None -> regex c = true ->
   forall re, regexp_Compile E (Value c) = inl re ->
   result (FileContains E c) = Some (existsb re lines, None)) /\
  (snd (readFile E (Path c)) = None -> regex c = true ->
   forall e, regexp_Compile E (Value c) = inr e ->
   result (FileContains E c) = Some (false, Some e)).
Proof.
  intros Hv. unfold FileContains. rewrite result_validated by assumption.
  destruct (readFile E (Path c)) as [content err]. simpl.
  repeat split.
  - intros e ->. reflexivity.
  - intros -> Hr. simpl. rewrite FileContains_loop_plain by assumption. reflexivity.
  - intros -> Hr re Hc. simpl. rewrite (FileContains_loop_regex c re) by assumption.
    reflexivity.
  - intros -> Hr e Hc. simpl.
    rewrite (FileContains_loop_malformed c e); auto using strings_Split_nonempty.
Qed.

(** Whenever [FileContains] returns an error, its boolean is [false]. *)
Lemma FileContains_error_false (c : cond) (r : bool) (e : error) :
  result (FileContains E c) = Some (r, Some e) -> r = false.
Proof.
  unfold FileContains. rewrite result_bind.
  destruct (result (requireArgs E c ["Path"; "Value"])); [|discriminate].
  destruct (readFile E (Path c)) as [content [e'|]]; cbn [notNil];
    rewrite result_mret; [congruence|].
  generalize (strings_Split content newline). intros lines.
  induction lines as [|line lines IH]; cbn [FileContains_loop]; [discriminate|].
  destruct (regex c).
  - unfold regexp_Match. destruct (regexp_Compile E (Value c)) as [re|e']; cbn [notNil].
    + destruct (re line); [discriminate|]. exact IH.
    + congruence.
  - destruct (strings_Contains line (Value c)); [discriminate|exact IH].
Qed.

End FileSearch.

Lemma FileContains_answers_witness :
  let E := Host.env true in
  validates E (Host.on_path "FileContains" "/etc/motd" "disk") ["Path"; "Value"] /\
  result (FileContains E (Host.on_path "FileContains" "/etc/motd" "disk")) = Some (true, None) /\
  result (FileContains E (Host.on_path "FileContains" "/srv/a" "disk"))
  = Some (false, Some (Host.denied "/srv/a")) /\
  result (FileContains E (set_regex true (Host.on_path "FileContains" "/etc/motd" "ERROR")))
  = Some (true, None) /\
  result (FileContains E (set_regex true (Host.on_path "FileContains" "/etc/motd" "[")))
  = Some (false, Some Host.badPattern).
Proof.
  intros E. split; [reflexivity|]. split; [|split; [|split]].
  - destruct (FileContains_answers E (Host.on_path "FileContains" "/etc/motd" "disk"))
      as (_ & H & _ & _); [reflexivity|]. apply H; reflexivity.
  - destruct (FileContains_answers E (Host.on_path "FileContains" "/srv/a" "disk"))
      as (H & _ & _ & _); [reflexivity|]. apply H; reflexivity.
  - destruct (FileContains_answers E
                (set_regex true (Host.on_path "FileContains" "/etc/motd" "ERROR")))
      as (_ & _ & H & _); [reflexivity|].
    apply (H eq_refl eq_refl (fun b => strings_Contains b "ERROR")). reflexivity.
  - destruct (FileContains_answers E
                (set_regex true (Host.on_path "FileContains" "/etc/motd" "[")))
      as (_ & _ & _ & H); [reflexivity|].
    apply (H eq_refl eq_refl Host.badPattern). reflexivity.
Defined.

(** ** Searching a directory *)

Section DirectorySearch.

Variable E : Env.

(** One call of the function of the walk on an entry that has its
    [FileInfo]. *)
Lemma DirContains_walkFn_entry (acc : list string) (v : visit) :
  visit_info v <> None ->
  DirContains_walkFn acc v
  = mret (acc ++ entry_files v,
          if (10000 <? Z.of_nat (length (acc ++ entry_files v)))%Z
          then Some too_many else None).
Proof.
  unfold DirContains_walkFn, entry_files. destruct (visit_info v) as [info|]; [|done].
  intros _. destruct (IsDir info); cbn [negb]; rewrite ?app_nil_r;
    destruct (10000 <? _)%Z; reflexivity.
Qed.

(** A walk within the bound collects the files of its entries. *)
Lemma walk_loop_collects (visits : list visit) (acc : list string) :
  Forall (fun v => visit_info v <> None) visits ->
  (Z.of_nat (length (acc ++ flat_map entry_files visits)) <= 10000)%Z ->
  walk_loop DirContains_walkFn visits acc
  = ([], Ret (acc ++ flat_map entry_files visits, None)).
Proof.
  intros Hs. revert acc.
  induction Hs as [|v visits Hv _ IH]; intros acc Hlen; cbn [walk_loop flat_map] in *.
  - rewrite app_nil_r. reflexivity.
  - rewrite DirContains_walkFn_entry, L_bind_mret_l by assumption.
    rewrite app_assoc in Hlen |- *.
    destruct (Z.ltb_spec 10000 (Z.of_nat (length (acc ++ entry_files v)))) as [Hgt|Hle].
    + rewrite length_app in Hlen. lia.
    + cbn [notNil]. apply IH. assumption.
Qed.

(** A walk that meets more than 10,000 files ends with an error. *)
Lemma walk_loop_overflows (visits : list visit) (acc : list string) :
  Forall (fun v => visit_info v <> None) visits ->
  (Z.of_nat (length acc) <= 10000)%Z ->
  (10000 < Z.of_nat (length (acc ++ flat_map entry_files visits)))%Z ->
  exists files, walk_loop DirContains_walkFn visits acc = ([], Ret (files, Some too_many)).
Proof.
  intros Hs. revert acc.
  induction Hs as [|v visits Hv _ IH]; intros acc Hacc Hlen; cbn [walk_loop flat_map] in *.
  - rewrite app_nil_r in Hlen. lia.
  - rewrite DirContains_walkFn_entry, L_bind_mret_l by assumption.
    rewrite app_assoc in Hlen.
    destruct (Z.ltb_spec 10000 (Z.of_nat (length (acc ++ entry_files v)))) as [Hgt|Hle].
    + cbn [notNil]. eexists. reflexivity.
    + cbn [notNil]. apply IH; assumption.
Qed.

Lemma PathExists_result (c : cond) :
  validates E c ["Path"] ->
  result (PathExists E c)
  = Some (match os_Stat E (Path c) with
          | None => (true, None)
          | Some e => if os_IsNotExist (Some e) then (false, None) else (false, Some e)
          end).
Proof.
  intros Hv. unfold PathExists. rewrite result_validated by assumption.
  destruct (os_Stat E (Path c)) as [e|]; [|reflexivity].
  cbn [notNil andb]. destruct (os_IsNotExist (Some e)); reflexivity.
Qed.

(** One turn of the loop over the files. *)
Lemma DirContains_search_step (c : cond) (f : string) (rest : list string)
      (r : bool) (err : option error) :
  result (FileContains E (set_Path c f)) = Some (r, err) ->
  result (DirContains_search E c (f :: rest))
  = if os_IsPermission err then Some (false, err)
    else if r then Some (true, None)
    else result (DirContains_search E c rest).
Proof.
  intros Hf. cbn [DirContains_search]. rewrite result_bind, Hf.
  destruct (os_IsPermission err); [reflexivity|].
  destruct r; [reflexivity|].
  destruct rest; reflexivity.
Qed.

(** What [DirContains] does once the directory is there and the walk
    stayed within the bound. *)
Lemma DirContains_searches (c : cond) :
  validates E c ["Path"; "Value"] ->
  os_Stat E (Path c) = None ->
  walk_sound E (Path c) ->
  (Z.of_nat (length (walked_files E (Path c))) <= 10000)%Z ->
  result (DirContains E c) = result (DirContains_search E c (walked_files E (Path c))).
Proof.
  intros Hv Hstat Hs Hlen. unfold DirContains.
  rewrite result_validated by assumption.
  rewrite result_bind, PathExists_result by (apply validates_internal; reflexivity).
  cbn [set_Path Path]. rewrite Hstat. cbn [notNil negb].
  rewrite result_bind. unfold filepath_Walk.
  rewrite walk_loop_collects by assumption. reflexivity.
Qed.

End DirectorySearch.

Section DirContainsClaims.

Variable E : Env.

Lemma DirContains_absent (c : cond) :
  validates E c ["Path"; "Value"] ->
  os_IsNotExist (os_Stat E (Path c)) = true ->
  result (DirContains E c) = Some (false, Some (errors_New "path does not exist")).
Proof.
  intros Hv Hne. unfold DirContains. rewrite result_validated by assumption.
  rewrite result_bind, PathExists_result by (apply validates_internal; reflexivity).
  cbn [set_Path Path]. destruct (os_Stat E (Path c)) as [e|]; [|discriminate].
  rewrite Hne. reflexivity.
Qed.

(** A walk that has ended with an error does not go on. *)
Lemma walk_loop_stops {S : Type} (fn : S -> visit -> L (S * option error))
      (pre post : list visit) (s s' : S) (e : error) :
  walk_loop fn pre s = ([], Ret (s', Some e)) ->
  walk_loop fn (pre ++ post) s = ([], Ret (s', Some e)).
Proof.
  revert s. induction pre as [|v pre IH]; intros s; cbn [walk_loop app]; [discriminate|].
  rewrite !L_bind_unfold. destruct (fn s v) as [evs [[s1 err]|q|]]; try discriminate.
  destruct (notNil err); [|destruct (walk_loop fn pre s1) as [evs1 o1] eqn:Hw].
  - cbn. intros [= -> -> ->]. reflexivity.
  - cbn [fst snd]. intros [= Hevs ->].
    apply app_eq_nil in Hevs as [-> ->].
    rewrite (IH s1 Hw). reflexivity.
Qed.

Lemma DirContains_overflow (c : cond) (pre post : list visit) :
  validates E c ["Path"; "Value"] ->
  os_Stat E (Path c) = None ->
  walk_visits E (Path c) = pre ++ post ->
  Forall (fun v => visit_info v <> None) pre ->
  (10000 < Z.of_nat (length (flat_map entry_files pre)))%Z ->
  result (DirContains E c) = Some (false, Some too_many).
Proof.
  intros Hv Hstat Hvisits Hs Hlen. unfold DirContains.
  rewrite result_validated by assumption.
  rewrite result_bind, PathExists_result by (apply validates_internal; reflexivity).
  cbn [set_Path Path]. rewrite Hstat. cbn [notNil negb].
  rewrite result_bind. unfold filepath_Walk. rewrite Hvisits.
  destruct (walk_loop_overflows pre []) as [files Hw];
    [assumption | simpl; lia | assumption |].
  rewrite (walk_loop_stops _ pre post [] files too_many Hw). reflexivity.
Qed.

(** The search goes past the files it can pass and stops at the first
    that holds the value. *)
Lemma DirContains_search_finds (c : cond) (pre : list string) (f : string)
      (post : list string) :
  Forall (file_passable E c) pre -> file_contains E c f ->
  result (DirContains_search E c (pre ++ f :: post)) = Some (true, None).
Proof.
  intros Hpre Hf. induction Hpre as [|g pre (r & err & Hg & Hperm) _ IH].
  - cbn [app]. rewrite (DirContains_search_step E c f post true None Hf). reflexivity.
  - cbn [app]. rewrite (DirContains_search_step E c g _ r err Hg), Hperm.
    destruct r; [reflexivity|exact IH].
Qed.

(** The search goes on after a file whose error is not a permission
    error, as if the file had not been there. *)
Lemma DirContains_search_discards (c : cond) (pre rest : list string) :
  Forall (file_fails E c) pre ->
  result (DirContains_search E c (pre ++ rest)) = result (DirContains_search E c rest).
Proof.
  intros Hpre. induction Hpre as [|g pre (r & e & Hg & Hperm) _ IH]; [reflexivity|].
  cbn [app]. rewrite (DirContains_search_step E c g _ r (Some e) Hg), Hperm.
  rewrite (FileContains_error_false E _ r e Hg). exact IH.
Qed.

(** The search stops at the first permission error. *)
Lemma DirContains_search_denied (c : cond) (pre : list string) (f : string)
      (post : list string) (r : bool) (err : option error) :
  Forall (fun g => file_passable E c g /\ ~ file_contains E c g) pre ->
  result (FileContains E (set_Path c f)) = Some (r, err) ->
  os_IsPermission err = true ->
  result (DirContains_search E c (pre ++ f :: post)) = Some (false, err).
Proof.
  intros Hpre Hf Hperm.
  induction Hpre as [|g pre [(r' & err' & Hg & Hperm') Hnot] _ IH].
  - cbn [app]. rewrite (DirContains_search_step E c f post r err Hf), Hperm. reflexivity.
  - cbn [app]. rewrite (DirContains_search_step E c g _ r' err' Hg), Hperm'.
    destruct r'; [|exact IH].
    exfalso. apply Hnot. unfold file_contains. rewrite Hg.
    destruct err' as [e|]; [|reflexivity].
    discriminate (FileContains_error_false E _ true e Hg).
Qed.

End DirContainsClaims.

(** C4, as amended.  [DirContains] returns the error "path does not
    exist", with [false], when [os.Stat] reports that the path does
    not exist; it returns an error, with [false], as soon as the walk
    has found more than 10,000 files that are not directories; and it
    returns [true] when the walk, meeting no entry it could not stat,
    finds at most 10,000 files, one of them holds the value, and the
    search raises no permission error on the files enumerated before
    it. *)
Theorem DirContains_answers (E : Env) (c : cond) :
  validates E c ["Path"; "Value"] ->
  (os_IsNotExist (os_Stat E (Path c)) = true ->
   result (DirContains E c) = Some (false, Some (errors_New "path does not exist"))) /\
  (os_Stat E (Path c) = None ->
   forall pre post, walk_visits E (Path c) = pre ++ post ->
     Forall (fun v => visit_info v <> None) pre ->
     (10000 < Z.of_nat (length (flat_map entry_files pre)))%Z ->
     result (DirContains E c) = Some (false, Some too_many)) /\
  (os_Stat E (Path c) = None -> walk_sound E (Path c) ->
   (Z.of_nat (length (walked_files E (Path c))) <= 10000)%Z ->
   forall pre f post, walked_files E (Path c) = pre ++ f :: post ->
     Forall (file_passable E c) pre -> file_contains E c f ->
     result (DirContains E c) = Some (true, None)).
Proof.
  intros Hv. repeat split.
  - apply DirContains_absent; assumption.
  - intros Hstat pre post Hvisits Hs Hlen.
    apply (DirContains_overflow E c pre post); assumption.
  - intros Hstat Hs Hlen pre f post Hfiles Hpre Hf.
    rewrite DirContains_searches, Hfiles by assumption.
    apply DirContains_search_finds; assumption.
Qed.

(** C10. In the loop of [DirContains] over the files, a permission
    error of [FileContains] ends the search and is returned; a file
    whose error is of another kind is dropped and the search goes on
    with the files after it; so a directory in which every file fails
    with such an error gives [(false, nil)]. *)
Theorem DirContains_error_handling (E : Env) (c : cond) :
  validates E c ["Path"; "Value"] ->
  os_Stat E (Path c) = None -> walk_sound E (Path c) ->
  (Z.of_nat (length (walked_files E (Path c))) <= 10000)%Z ->
  (forall pre f post r err, walked_files E (Path c) = pre ++ f :: post ->
     Forall (fun g => file_passable E c g /\ ~ file_contains E c g) pre ->
     result (FileContains E (set_Path c f)) = Some (r, err) ->
     os_IsPermission err = true ->
     result (DirContains E c) = Some (false, err)) /\
  (forall pre rest, walked_files E (Path c) = pre ++ rest ->
     Forall (file_fails E c) pre ->
     result (DirContains E c) = result (DirContains_search E c rest)) /\
  (Forall (file_fails E c) (walked_files E (Path c)) ->
   result (DirContains E c) = Some (false, None)).
Proof.
  intros Hv Hstat Hs Hlen. rewrite DirContains_searches by assumption.
  repeat split.
  - intros pre f post r err -> Hpre Hf Hperm.
    apply (DirContains_search_denied E c pre f post r err); assumption.
  - intros pre rest -> Hpre. apply DirContains_search_discards; assumption.
  - intros Hall.
    rewrite <- (app_nil_r (walked_files E (Path c))).
    rewrite DirContains_search_discards by assumption. reflexivity.
Qed.

Lemma DirContains_answers_witness :
  let E := Host.env true in
  result (DirContains E (Host.on_path "DirContains" "/nowhere" "secret"))
  = Some (false, Some (errors_New "path does not exist")) /\
  result (DirContains E (Host.on_path "DirContains" "/big" "secret"))
  = Some (false, Some too_many) /\
  result (DirContains E (Host.on_path "DirContains" "/etc" "disk")) = Some (true, None).
Proof.
  intros E. split; [|split].
  - destruct (DirContains_answers E (Host.on_path "DirContains" "/nowhere" "secret"))
      as (H & _ & _); [reflexivity|]. apply H. reflexivity.
  - destruct (DirContains_answers E (Host.on_path "DirContains" "/big" "secret"))
      as (_ & H & _); [reflexivity|].
    apply (H eq_refl (Host.dir "/big" :: repeat (Host.file "/big/f") (N.to_nat 10001)) []).
    + symmetry. apply app_nil_r.
    + constructor; [discriminate|].
      apply Forall_forall. intros v Hv. rewrite list_elem_of_In in Hv.
      apply repeat_spec in Hv. subst v. discriminate.
    + vm_compute. reflexivity.
  - destruct (DirContains_answers E (Host.on_path "DirContains" "/etc" "disk"))
      as (_ & _ & H); [reflexivity|].
    apply (H eq_refl) with (pre := []) (f := "/etc/motd") (post := []).
    + repeat constructor; discriminate.
    + vm_compute. discriminate.
    + reflexivity.
    + constructor.
    + reflexivity.
Defined.

(** C4, as it is written, fails on a directory of two files in which
    the file that cannot be read comes before the one that holds the
    value: the search ends with the permission error. *)
Lemma DirContains_unreadable_sibling :
  ~ finds_the_matching_file (Host.env true) (Host.on_path "DirContains" "/srv" "secret").
Proof.
  unfold finds_the_matching_file. intros H.
  assert (result (DirContains (Host.env true) (Host.on_path "DirContains" "/srv" "secret"))
          = Some (false, Some (Host.denied "/srv/a"))) as Hrun by reflexivity.
  rewrite H in Hrun; [discriminate Hrun| | | | |].
  - reflexivity.
  - reflexivity.
  - repeat constructor; discriminate.
  - vm_compute. discriminate.
  - exists "/srv/b". split; [simpl; auto|]. split; [reflexivity|].
    intros g [<-|[<-|[]]] Hg; [|reflexivity].
    vm_compute in Hg. discriminate Hg.
Qed.

Lemma DirContains_error_handling_witness :
  let E := Host.env true in
  result (DirContains E (Host.on_path "DirContains" "/srv" "secret"))
  = Some (false, Some (Host.denied "/srv/a")) /\
  result (DirContains E (set_regex true (Host.on_path "DirContains" "/etc" "[")))
  = Some (false, None).
Proof.
  intros E. split.
  - destruct (DirContains_error_handling E (Host.on_path "DirContains" "/srv" "secret"))
      as (H & _ & _).
    + reflexivity.
    + reflexivity.
    + repeat constructor; discriminate.
    + vm_compute. discriminate.
    + apply (H [] "/srv/a" ["/srv/b"] false (Some (Host.denied "/srv/a")));
        [reflexivity | constructor | reflexivity | reflexivity].
  - destruct (DirContains_error_handling E
                (set_regex true (Host.on_path "DirContains" "/etc" "[")))
      as (_ & _ & H).
    + reflexivity.
    + reflexivity.
    + repeat constructor; discriminate.
    + vm_compute. discriminate.
    + apply H. constructor; [|constructor].
      exists false, Host.badPattern. split; reflexivity.
Defined.

(** ** The dispatcher *)

Section ReturnsWith.

Context {A B : Type}.

Lemma returns_bind (p : positive) (c c1 c2 : cond) (m : St A) (f : A -> St B)
      (a : A) (b : B) :
  returns_with p c m a c1 -> returns_with p c1 (f a) b c2 ->
  returns_with p c (m ≫= f) b c2.
Proof.
  intros Hm Hf σ Hσ. destruct (Hm σ Hσ) as (σ1 & evs1 & Hrun1 & Hσ1).
  destruct (Hf σ1 Hσ1) as (σ2 & evs2 & Hrun2 & Hσ2).
  exists σ2, (evs1 ++ evs2). split; [|assumption].
  unfold mbind, St_bind. rewrite Hrun1, Hrun2. reflexivity.
Qed.

Lemma returns_mret (p : positive) (c : cond) (a : A) :
  returns_with p c (mret a : St A) a c.
Proof. intros σ Hσ. exists σ, []. split; [reflexivity|assumption]. Qed.

Lemma returns_lift (p : positive) (c : cond) (m : L A) (a : A) :
  result m = Some a -> returns_with p c (lift m) a c.
Proof.
  intros Hm σ Hσ. destruct m as [evs [a'|q|]]; try discriminate.
  injection Hm as ->. exists σ, evs. split; [reflexivity|assumption].
Qed.

Lemma returns_defer (p : positive) (c c1 c2 : cond) (d : St unit) (body : St A) (a : A) :
  returns_with p c body a c1 -> returns_with p c1 d tt c2 ->
  returns_with p c (defer d body) a c2.
Proof.
  intros Hb Hd σ Hσ. destruct (Hb σ Hσ) as (σ1 & evs1 & Hrun1 & Hσ1).
  destruct (Hd σ1 Hσ1) as (σ2 & evs2 & Hrun2 & Hσ2).
  exists σ2, (evs1 ++ evs2). split; [|assumption].
  unfold defer. rewrite Hrun1, Hrun2. reflexivity.
Qed.

Lemma returns_defer_recovering (p : positive) (c c1 c2 : cond)
      (h : option panicValue -> St unit) (zero : A) (body : St A) (a : A) :
  returns_with p c body a c1 -> returns_with p c1 (h None) tt c2 ->
  returns_with p c (defer_recovering h zero body) a c2.
Proof.
  intros Hb Hd σ Hσ. destruct (Hb σ Hσ) as (σ1 & evs1 & Hrun1 & Hσ1).
  destruct (Hd σ1 Hσ1) as (σ2 & evs2 & Hrun2 & Hσ2).
  exists σ2, (evs1 ++ evs2). split; [|assumption].
  unfold defer_recovering. rewrite Hrun1, Hrun2. reflexivity.
Qed.

End ReturnsWith.

Lemma returns_load (p : positive) (c : cond) : returns_with p c (load p) c c.
Proof.
  intros σ Hσ. exists σ, []. split; [|assumption]. unfold load. rewrite Hσ. reflexivity.
Qed.

Lemma returns_store (p : positive) (c c' : cond) : returns_with p c (store p c') tt c'.
Proof.
  intros σ Hσ. exists (<[p := c']> σ), []. split; [reflexivity|apply lookup_insert_eq].
Qed.

(** A predicate that returns a boolean and an error hands [reflect]
    these two values. *)
Lemma as_values_returns (m : L (bool * option error)) (b : bool) (err : option error) :
  result m = Some (b, err) -> as_values m = (fst m, Ret [RBool b; RError err]).
Proof.
  destruct m as [evs [[b' err']|q|]]; try discriminate.
  intros [= -> ->]. unfold as_values. rewrite L_bind_unfold. cbn.
  rewrite app_nil_r. reflexivity.
Qed.

Section Verdict.

Variable E : Env.

(** What [runCheck] makes of a boolean and an error. *)
Lemma verdict_of_pair (condFunc : string) (negation res : bool) (err : option error) :
  result (verdict E condFunc negation [RBool res; RError err])
  = Some (if negation then isNil err && negb res else isNil err && res).
Proof.
  unfold verdict. destruct negation; [reflexivity|].
  destruct (verboseEnabled E), err as [e|]; reflexivity.
Qed.

End Verdict.

Section RunCheck.

Variable E : Env.

Lemma deobfuscateCond_at_returns (p : positive) (c : cond) :
  returns_with p c (deobfuscateCond_at E p)
               (snd (deobfuscateCond E c)) (fst (deobfuscateCond E c)).
Proof.
  unfold deobfuscateCond_at. eapply returns_bind; [apply returns_load|].
  destruct (deobfuscateCond E c) as [c' err]. cbn [fst snd].
  eapply returns_bind; [apply returns_store|apply returns_mret].
Qed.

Lemma obfuscateCond_at_returns (p : positive) (c : cond) :
  returns_with p c (obfuscateCond_at E p)
               (snd (obfuscateCond E c)) (fst (obfuscateCond E c)).
Proof.
  unfold obfuscateCond_at. eapply returns_bind; [apply returns_load|].
  destruct (obfuscateCond E c) as [c' err]. cbn [fst snd].
  eapply returns_bind; [apply returns_store|apply returns_mret].
Qed.

Lemma deferred_obfuscation_returns (p : positive) (c : cond) :
  returns_with p c (obfuscateCond_at E p ;; mret tt) tt (fst (obfuscateCond E c)).
Proof.
  eapply returns_bind; [apply obfuscateCond_at_returns|apply returns_mret].
Qed.

Lemma runCheck_call_returns (p : positive) (c : cond) (condFunc : string)
      (negation : bool) (method : cond -> L (list rvalue)) (evs : list event)
      (res : bool) (err : option error) :
  MethodByName E condFunc = Some method ->
  method c = (evs, Ret [RBool res; RError err]) ->
  returns_with p c (runCheck_call E p condFunc negation)
               (if negation then isNil err && negb res else isNil err && res) c.
Proof.
  intros Hm Hcall. unfold runCheck_call.
  eapply returns_bind; [apply returns_load|].
  eapply returns_bind.
  - apply returns_lift. unfold reflect_Call. rewrite Hm, Hcall. reflexivity.
  - apply returns_lift. apply verdict_of_pair.
Qed.

Lemma runCheck_body_returns (p : positive) (c0 : cond)
      (method : cond -> L (list rvalue)) (evs : list event)
      (res : bool) (err : option error) :
  let c := set_regex false c0 in
  let condFunc := fst (fst (resolveModifiers (Type_ c))) in
  let negation := snd (fst (resolveModifiers (Type_ c))) in
  let rx := snd (resolveModifiers (Type_ c)) in
  String.length "Regex" < String.length (Type_ c) ->
  MethodByName E condFunc = Some method ->
  method (set_regex rx c) = (evs, Ret [RBool res; RError err]) ->
  returns_with p c0 (runCheck_body E p)
               (if negation then isNil err && negb res else isNil err && res)
               (set_regex rx c).
Proof.
  intros c condFunc negation rx Hlen Hm Hcall. unfold runCheck_body.
  eapply returns_bind; [apply returns_load|].
  eapply returns_bind; [apply returns_lift; reflexivity|].
  eapply returns_bind; [apply returns_store|].
  eapply returns_bind; [apply returns_load|].
  fold c. apply Nat.leb_gt in Hlen. rewrite Hlen.
  subst condFunc negation rx.
  destruct (resolveModifiers (Type_ c)) as [[condFunc negation] rx]. cbn [fst snd] in *.
  eapply returns_bind with (c1 := set_regex rx c).
  - destruct rx; [apply returns_store|apply returns_mret].
  - eapply returns_defer_recovering.
    + eapply runCheck_call_returns; eassumption.
    + apply returns_lift. reflexivity.
Qed.

(** What [runCheck] returns when the method it resolves to returns a
    boolean and an error. *)
Lemma runCheck_returns (arg : cond) (σ : gmap positive cond)
      (method : cond -> L (list rvalue)) (evs : list event)
      (res : bool) (err : option error) :
  let c := set_regex false (fst (deobfuscateCond E arg)) in
  let condFunc := fst (fst (resolveModifiers (Type_ c))) in
  let negation := snd (fst (resolveModifiers (Type_ c))) in
  let rx := snd (resolveModifiers (Type_ c)) in
  (snd (deobfuscateCond E arg) = None \/ fail_exits E = false) ->
  String.length "Regex" < String.length (Type_ c) ->
  MethodByName E condFunc = Some method ->
  method (set_regex rx c) = (evs, Ret [RBool res; RError err]) ->
  snd (snd (runCheck E arg σ))
  = Ret (if negation then isNil err && negb res else isNil err && res).
Proof.
  intros c condFunc negation rx Hdeob Hlen Hm Hcall.
  assert (returns_with (fresh (dom σ)) arg (runCheck_at E (fresh (dom σ)))
            (if negation then isNil err && negb res else isNil err && res)
            (fst (obfuscateCond E (set_regex rx c)))) as Hk.
  { unfold runCheck_at.
    eapply returns_bind; [apply deobfuscateCond_at_returns|].
    eapply returns_bind with (a := tt) (c1 := fst (deobfuscateCond E arg)).
    - destruct (snd (deobfuscateCond E arg)) as [e|]; [|apply returns_mret].
      cbn [notNil]. apply returns_lift. unfold fail, result. cbn [snd].
      destruct Hdeob as [Hd|Hx]; [discriminate|]. rewrite Hx. reflexivity.
    - eapply returns_defer.
      + eapply runCheck_body_returns; eassumption.
      + apply deferred_obfuscation_returns. }
  destruct (Hk (<[fresh (dom σ):=arg]> σ)) as (σ' & evs' & Hrun & _);
    [apply lookup_insert_eq|].
  unfold runCheck, mbind, St_bind, new_var. cbn [mret L_ret].
  rewrite Hrun. reflexivity.
Qed.

End RunCheck.

(** C2. When the method a condition resolves to returns the boolean
    [res] and the error [err], [runCheck] returns, under negation,
    [true] exactly when [err] is nil and [res] is false and, without
    negation, [true] exactly when [err] is nil and [res] is true; an
    error makes it return [false] either way. *)
Theorem runCheck_combines (E : Env) (arg : cond) (σ : gmap positive cond)
      (method : cond -> L (list rvalue)) (evs : list event)
      (res : bool) (err : option error) :
  let c := set_regex false (fst (deobfuscateCond E arg)) in
  let condFunc := fst (fst (resolveModifiers (Type_ c))) in
  let negation := snd (fst (resolveModifiers (Type_ c))) in
  let rx := snd (resolveModifiers (Type_ c)) in
  (snd (deobfuscateCond E arg) = None \/ fail_exits E = false) ->
  String.length "Regex" < String.length (Type_ c) ->
  MethodByName E condFunc = Some method ->
  method (set_regex rx c) = (evs, Ret [RBool res; RError err]) ->
  snd (snd (runCheck E arg σ))
  = Ret (if negation then isNil err && negb res else isNil err && res)
  /\ (err <> None -> snd (snd (runCheck E arg σ)) = Ret false).
Proof.
  intros c condFunc negation rx Hdeob Hlen Hm Hcall.
  pose proof (runCheck_returns E arg σ method evs res err Hdeob Hlen Hm Hcall) as Hret.
  cbv zeta in Hret. fold c in Hret. fold negation in Hret.
  split; [exact Hret|].
  intros Herr. rewrite Hret. destruct err as [e|]; [|congruence].
  destruct negation; reflexivity.
Qed.

Lemma runCheck_combines_witness :
  let E := Host.env true in
  snd (snd (runCheck E (Host.on_path "FileContainsNot" "/etc/motd" "emoclew") ∅)) = Ret false /\
  snd (snd (runCheck E (Host.on_path "FileContainsNot" "/srv/a" "emoclew") ∅)) = Ret false /\
  snd (snd (runCheck E (Host.on_path "FileContains" "/srv/a" "emoclew") ∅)) = Ret false /\
  snd (snd (runCheck E (Host.on_path "FileContains" "/etc/motd" "emoclew") ∅)) = Ret true.
Proof.
  intros E. split; [|split; [|split]].
  - destruct (runCheck_combines E (Host.on_path "FileContainsNot" "/etc/motd" "emoclew") ∅
                (fun c => as_values (FileContains E c)) [] true None) as [H _];
      [left; reflexivity | simpl; lia | reflexivity | reflexivity | exact H].
  - destruct (runCheck_combines E (Host.on_path "FileContainsNot" "/srv/a" "emoclew") ∅
                (fun c => as_values (FileContains E c)) [] false
                (Some (Host.denied "/srv/a"))) as [_ H];
      [left; reflexivity | simpl; lia | reflexivity | reflexivity | apply H; discriminate].
  - destruct (runCheck_combines E (Host.on_path "FileContains" "/srv/a" "emoclew") ∅
                (fun c => as_values (FileContains E c)) [] false
                (Some (Host.denied "/srv/a"))) as [_ H];
      [left; reflexivity | simpl; lia | reflexivity | reflexivity | apply H; discriminate].
  - destruct (runCheck_combines E (Host.on_path "FileContains" "/etc/motd" "emoclew") ∅
                (fun c => as_values (FileContains E c)) [] true None) as [H _];
      [left; reflexivity | simpl; lia | reflexivity | reflexivity | exact H].
Defined.

(** ** The variables of the caller *)

Section WritesOnly.

Context {A B : Type}.

Lemma writes_only_bind (p : positive) (m : St A) (f : A -> St B) :
  writes_only p m -> (forall a, writes_only p (f a)) -> writes_only p (m ≫= f).
Proof.
  intros Hm Hf σ l Hl. specialize (Hm σ l Hl).
  unfold mbind, St_bind. destruct (m σ) as [σ1 [evs [a|q|]]]; cbn [fst] in *; try assumption.
  specialize (Hf a σ1 l Hl). destruct (f a σ1) as [σ2 [evs' o]]. cbn [fst] in *.
  congruence.
Qed.

Lemma writes_only_mret (p : positive) (a : A) : writes_only p (mret a : St A).
Proof. intros σ l Hl. reflexivity. Qed.

Lemma writes_only_lift (p : positive) (m : L A) : writes_only p (lift m).
Proof. intros σ l Hl. reflexivity. Qed.

Lemma writes_only_defer (p : positive) (d : St unit) (body : St A) :
  writes_only p body -> writes_only p d -> writes_only p (defer d body).
Proof.
  intros Hb Hd σ l Hl. specialize (Hb σ l Hl). unfold defer.
  destruct (body σ) as [σ1 [evs o]]. cbn [fst] in *.
  specialize (Hd σ1 l Hl).
  destruct o as [a|q|]; try assumption;
    destruct (d σ1) as [σ2 [evs' [[]|q'|]]]; cbn [fst] in *; congruence.
Qed.

Lemma writes_only_defer_recovering (p : positive) (h : option panicValue -> St unit)
      (zero : A) (body : St A) :
  writes_only p body -> (forall r, writes_only p (h r)) ->
  writes_only p (defer_recovering h zero body).
Proof.
  intros Hb Hh σ l Hl. specialize (Hb σ l Hl). unfold defer_recovering.
  destruct (body σ) as [σ1 [evs o]]. cbn [fst] in *.
  destruct o as [a|q|]; try assumption.
  - specialize (Hh None σ1 l Hl).
    destruct (h None σ1) as [σ2 [evs' [[]|q'|]]]; cbn [fst] in *; congruence.
  - specialize (Hh (Some q) σ1 l Hl).
    destruct (h (Some q) σ1) as [σ2 [evs' [[]|q'|]]]; cbn [fst] in *; congruence.
Qed.

End WritesOnly.

Lemma writes_only_load (p : positive) : writes_only p (load p).
Proof. intros σ l Hl. unfold load. destruct (σ !! p); reflexivity. Qed.

Lemma writes_only_store (p : positive) (c : cond) : writes_only p (store p c).
Proof. intros σ l Hl. unfold store. cbn [fst]. apply lookup_insert_ne. congruence. Qed.

Create HintDb frame.
#[local] Hint Resolve writes_only_mret writes_only_lift writes_only_load
  writes_only_store : frame.

Section Frame.

Variable E : Env.

Lemma writes_only_deobfuscate (p : positive) : writes_only p (deobfuscateCond_at E p).
Proof.
  unfold deobfuscateCond_at. apply writes_only_bind; [auto with frame|].
  intros c. destruct (deobfuscateCond E c). apply writes_only_bind; auto with frame.
Qed.

Lemma writes_only_obfuscate (p : positive) : writes_only p (obfuscateCond_at E p).
Proof.
  unfold obfuscateCond_at. apply writes_only_bind; [auto with frame|].
  intros c. destruct (obfuscateCond E c). apply writes_only_bind; auto with frame.
Qed.

Lemma writes_only_runCheck_call (p : positive) (condFunc : string) (negation : bool) :
  writes_only p (runCheck_call E p condFunc negation).
Proof.
  unfold runCheck_call. repeat (apply writes_only_bind; [auto with frame|intros ?]).
  auto with frame.
Qed.

Lemma writes_only_runCheck_body (p : positive) : writes_only p (runCheck_body E p).
Proof.
  unfold runCheck_body.
  do 4 (apply writes_only_bind; [auto with frame|intros ?]).
  destruct (Nat.leb _ _).
  - apply writes_only_bind; auto with frame.
  - destruct (resolveModifiers _) as [[condFunc negation] rx].
    apply writes_only_bind; [destruct rx; auto with frame|intros _].
    apply writes_only_defer_recovering; [apply writes_only_runCheck_call|].
    auto with frame.
Qed.

(** [runCheck] writes its parameter and nothing else. *)
Lemma writes_only_runCheck_at (p : positive) : writes_only p (runCheck_at E p).
Proof.
  unfold runCheck_at.
  apply writes_only_bind; [apply writes_only_deobfuscate|intros err].
  apply writes_only_bind; [destruct (notNil err); auto with frame|intros _].
  apply writes_only_defer; [apply writes_only_runCheck_body|].
  apply writes_only_bind; [apply writes_only_obfuscate|auto with frame].
Qed.

End Frame.

(** ** The parameter of [runCheck] *)

Section Hoare.

Context {A B : Type}.

Lemma hoare_bind (p : positive) (P : cond -> Prop) (m : St A) (f : A -> St B)
      (Q1 : outcome A -> cond -> Prop) (Q : outcome B -> cond -> Prop) :
  hoare p P m Q1 ->
  (forall a, hoare p (Q1 (Ret a)) (f a) Q) ->
  (forall q c, Q1 (Panic q) c -> Q (Panic q) c) ->
  (forall c, Q1 Exit c -> Q Exit c) ->
  hoare p P (m ≫= f) Q.
Proof.
  intros Hm Hf Hpanic Hexit σ c Hσ HP.
  destruct (Hm σ c Hσ HP) as (c1 & Hσ1 & HQ1).
  unfold mbind, St_bind. destruct (m σ) as [σ1 [evs [a|q|]]]; cbn [fst snd] in *.
  - destruct (Hf a σ1 c1 Hσ1 HQ1) as (c2 & Hσ2 & HQ).
    destruct (f a σ1) as [σ2 [evs' o]]. cbn [fst snd] in *. eauto.
  - eauto.
  - eauto.
Qed.

Lemma hoare_weaken (p : positive) (P : cond -> Prop) (m : St A)
      (Q Q' : outcome A -> cond -> Prop) :
  hoare p P m Q' -> (forall o c, Q' o c -> Q o c) -> hoare p P m Q.
Proof.
  intros Hm HQ σ c Hσ HP. destruct (Hm σ c Hσ HP) as (c' & Hσ' & HQ'). eauto.
Qed.

Lemma hoare_intro (p : positive) (P : cond -> Prop) (m : St A)
      (Q : outcome A -> cond -> Prop) :
  (forall c0, P c0 -> hoare p (fun c => c = c0) m Q) -> hoare p P m Q.
Proof. intros H σ c Hσ HP. exact (H c HP σ c Hσ eq_refl). Qed.

Lemma hoare_mret (p : positive) (P : cond -> Prop) (a : A) :
  hoare p P (mret a : St A) (fun o c' => o = Ret a /\ P c').
Proof. intros σ c Hσ HP. exists c. cbn. auto. Qed.

Lemma hoare_lift (p : positive) (P : cond -> Prop) (m : L A) :
  hoare p P (lift m) (fun o c' => o = snd m /\ P c').
Proof. intros σ c Hσ HP. exists c. cbn. auto. Qed.

Lemma hoare_returns (p : positive) (c c' : cond) (m : St A) (a : A) :
  returns_with p c m a c' ->
  hoare p (fun c0 => c0 = c) m (fun o c0 => o = Ret a /\ c0 = c').
Proof.
  intros Hm σ c0 Hσ ->. destruct (Hm σ Hσ) as (σ' & evs & Hrun & Hσ').
  exists c'. rewrite Hrun. auto.
Qed.

(** A deferred handler that leaves the store alone. *)
Lemma hoare_defer_recovering (p : positive) (P R : cond -> Prop)
      (h : option panicValue -> L unit) (zero : A) (body : St A) :
  hoare p P body (fun _ c' => R c') ->
  hoare p P (defer_recovering (fun r => lift (h r)) zero body) (fun _ c' => R c').
Proof.
  intros Hb σ c Hσ HP. destruct (Hb σ c Hσ HP) as (c' & Hσ' & HR).
  exists c'. split; [|assumption]. unfold defer_recovering, lift.
  destruct (body σ) as [σ1 [evs [a|q|]]]; cbn [fst] in *; try assumption.
  - destruct (h None) as [evs' [[]|q'|]]; assumption.
  - destruct (h (Some q)) as [evs' [[]|q'|]]; assumption.
Qed.

(** A deferred call that returns: unless the process has exited, the
    variable ends as the deferred call leaves it. *)
Lemma hoare_defer (p : positive) (P R : cond -> Prop) (d : St unit) (body : St A)
      (g : cond -> cond) :
  hoare p P body (fun _ c' => R c') ->
  (forall c1, returns_with p c1 d tt (g c1)) ->
  hoare p P (defer d body)
        (fun o c' => o <> Exit -> exists c1, R c1 /\ c' = g c1).
Proof.
  intros Hb Hd σ c Hσ HP. destruct (Hb σ c Hσ HP) as (c1 & Hσ1 & HR).
  unfold defer. destruct (body σ) as [σ1 [evs o]]. cbn [fst snd] in *.
  destruct (Hd c1 σ1 Hσ1) as (σ2 & evs2 & Hrun & Hσ2).
  destruct o as [a|q|].
  - rewrite Hrun. exists (g c1). cbn [fst snd]. eauto.
  - rewrite Hrun. exists (g c1). cbn [fst snd]. eauto.
  - exists c1. cbn [fst snd]. split; [assumption|congruence].
Qed.

End Hoare.

Lemma hoare_load (p : positive) (P : cond -> Prop) :
  hoare p P (load p) (fun o c' => o = Ret c' /\ P c').
Proof.
  intros σ c Hσ HP. exists c. unfold load. rewrite Hσ. cbn. auto.
Qed.

Lemma hoare_store (p : positive) (P : cond -> Prop) (v : cond) :
  hoare p P (store p v) (fun o c' => o = Ret tt /\ c' = v).
Proof.
  intros σ c Hσ HP. exists v. cbn. split; [apply lookup_insert_eq|auto].
Qed.

Section LocalCopy.

Variable E : Env.

Lemma hoare_runCheck_call (p : positive) (R : cond -> Prop)
      (condFunc : string) (negation : bool) :
  hoare p R (runCheck_call E p condFunc negation) (fun _ c' => R c').
Proof.
  unfold runCheck_call.
  eapply hoare_bind; [apply hoare_load| |intros q c [_ H]; exact H|intros c [_ H]; exact H].
  intros c. eapply hoare_bind with (Q1 := fun _ c' => R c'); [|intros vals|auto|auto].
  - eapply hoare_weaken; [apply hoare_lift|]. intros o c' [_ [_ H]]. exact H.
  - eapply hoare_weaken; [apply hoare_lift|]. intros o c' [_ H]. exact H.
Qed.

(** A [load] followed by the rest: the value read is the content. *)
Ltac hoare_after_load c :=
  eapply hoare_bind;
  [ apply hoare_load
  | intros c; apply hoare_intro; intros ? [[= ->] ->]
  | intros ? ? [[=] _]
  | intros ? [[=] _] ].

(** A step that leaves the content [R] describes, then the rest. *)
Ltac hoare_then R :=
  eapply hoare_bind with (Q1 := fun _ c' => R c');
  [ | intros _ | auto | auto ].

(** The body of [runCheck] leaves its parameter as it found it, but
    for the regex flag. *)
Lemma hoare_runCheck_body (p : positive) (c1 : cond) :
  hoare p (fun c => c = c1) (runCheck_body E p) (fun _ c' => flagged c1 c').
Proof.
  assert (forall b, flagged c1 (set_regex b c1)) as Hflag by (intros b; exists b; reflexivity).
  assert (flagged c1 c1) as Hsame by (exists (regex c1); destruct c1; reflexivity).
  unfold runCheck_body.
  hoare_after_load c.
  eapply hoare_bind with (Q1 := fun _ c' => c' = c1);
    [eapply hoare_weaken; [apply hoare_lift|]; intros o c' [_ H]; exact H
    |intros _|intros q c' ->; exact Hsame|intros c' ->; exact Hsame].
  eapply hoare_bind with (Q1 := fun _ c' => c' = set_regex false c1);
    [eapply hoare_weaken; [apply hoare_store|]; intros o c' [_ H]; exact H
    |intros _|intros q c' ->; apply Hflag|intros c' ->; apply Hflag].
  hoare_after_load c.
  destruct (Nat.leb _ _).
  - hoare_then (flagged c1).
    + eapply hoare_weaken; [apply hoare_lift|]. intros o c' [_ ->]. apply Hflag.
    + eapply hoare_weaken; [apply hoare_mret|]. intros o c' [_ H]. exact H.
  - destruct (resolveModifiers _) as [[condFunc negation] rx].
    hoare_then (flagged c1).
    + destruct rx.
      * eapply hoare_weaken; [apply hoare_store|]. intros o c' [_ ->]. apply (Hflag true).
      * eapply hoare_weaken; [apply hoare_mret|]. intros o c' [_ ->]. apply Hflag.
    + apply hoare_defer_recovering. apply hoare_runCheck_call.
Qed.

(** Unless the process exits, [runCheck] ends with its parameter
    obfuscated again: the variable holds what [obfuscateCond] makes of
    the deobfuscated argument, the regex flag apart. *)
Lemma hoare_runCheck_at (p : positive) (arg : cond) :
  hoare p (fun c => c = arg) (runCheck_at E p)
        (fun o c' => o <> Exit ->
                     exists c1, flagged (fst (deobfuscateCond E arg)) c1
                                /\ c' = fst (obfuscateCond E c1)).
Proof.
  unfold runCheck_at.
  eapply hoare_bind;
    [apply hoare_returns, deobfuscateCond_at_returns
    | |intros q c [[=] _]|intros c [[=] _]].
  intros err. apply hoare_intro. intros c0 [_ ->].
  apply hoare_bind
    with (Q1 := fun o c' => (o = Ret tt \/ o = Exit) /\ c' = fst (deobfuscateCond E arg)).
  - destruct (notNil err).
    + eapply hoare_weaken; [apply hoare_lift|]. intros o c' [-> ->].
      split; [|reflexivity]. unfold fail. cbn. destruct (fail_exits E); auto.
    + eapply hoare_weaken; [apply hoare_mret|]. intros o c' [-> ->]. auto.
  - intros []. apply hoare_intro. intros c0 [_ ->].
    apply hoare_defer; [apply hoare_runCheck_body|].
    intros c1. apply deferred_obfuscation_returns.
  - intros q c [[[=]|[=]] _].
  - intros c _ H. congruence.
Qed.

End LocalCopy.

(** C9. Whatever [runCheck] does to the condition it is given, it does
    to its own parameter: every variable that exists when [runCheck]
    is called, the condition of the caller among them, holds the same
    value when [runCheck] is over, whether it returns, panics or the
    process exits under it.  And unless the process exits, the
    deferred [obfuscateCond] has run on the parameter, which ends as
    the obfuscated form of the deobfuscated argument, the regex flag
    apart. *)
Theorem runCheck_preserves_caller (E : Env) (arg : cond) (σ : gmap positive cond) :
  (forall l c, σ !! l = Some c -> fst (runCheck E arg σ) !! l = Some c) /\
  (snd (snd (runCheck E arg σ)) <> Exit ->
   exists c1, flagged (fst (deobfuscateCond E arg)) c1 /\
              fst (runCheck E arg σ) !! fresh (dom σ) = Some (fst (obfuscateCond E c1))).
Proof.
  split.
  - intros l c Hl.
    assert (l <> fresh (dom σ)) as Hfresh.
    { intros ->. apply (is_fresh (dom σ)). apply elem_of_dom. eauto. }
    pose proof (writes_only_runCheck_at E (fresh (dom σ))
                  (<[fresh (dom σ) := arg]> σ) l Hfresh) as Hw.
    rewrite lookup_insert_ne in Hw by congruence.
    unfold runCheck, mbind, St_bind, new_var. cbn [mret L_ret].
    destruct (runCheck_at E (fresh (dom σ)) (<[fresh (dom σ) := arg]> σ)) as [σ2 [evs o]].
    cbn [fst] in *. congruence.
  - destruct (hoare_runCheck_at E (fresh (dom σ)) arg (<[fresh (dom σ) := arg]> σ) arg)
      as (c' & Hc' & Hpost); [apply lookup_insert_eq|reflexivity|].
    unfold runCheck, mbind, St_bind, new_var. cbn [mret L_ret].
    destruct (runCheck_at E (fresh (dom σ)) (<[fresh (dom σ) := arg]> σ)) as [σ2 [evs o]].
    cbn [fst snd] in *. intros Ho. destruct (Hpost Ho) as (c1 & Hc1 & ->). eauto.
Qed.

Lemma runCheck_preserves_caller_witness :
  let mine := Host.on_path "FileContainsRegex" "/etc/motd" "emoclew" in
  let σ : gmap positive cond := {[ 7%positive := mine ]} in
  fst (runCheck (Host.env true) mine σ) !! 7%positive = Some mine /\
  exists c1, flagged (fst (deobfuscateCond (Host.env true) mine)) c1 /\
             fst (runCheck (Host.env true) mine σ) !! fresh (dom σ)
             = Some (fst (obfuscateCond (Host.env true) c1)).
Proof.
  intros mine σ.
  destruct (runCheck_preserves_caller (Host.env true) mine σ) as [Hcaller Hown].
  split; [apply Hcaller; reflexivity|].
  apply Hown. vm_compute. discriminate.
Defined.

(** ** The modifiers of a condition type *)

Lemma substring_skip (s t : string) (n m : nat) :
  substring (String.length s + n) m (s ++ t) = substring n m t.
Proof. induction s as [|a s IH]; [reflexivity|exact IH]. Qed.

Lemma substring_prefix (s t : string) :
  substring 0 (String.length s) (s ++ t) = s.
Proof.
  induction s as [|a s IH].
  - cbn. destruct t; reflexivity.
  - change (String a s ++ t)%string with (String a (s ++ t)).
    cbn [String.length substring]. rewrite IH. reflexivity.
Qed.

(** A type that ends in "Regex" does not end in "Not": it resolves
    to what stands before "Regex", with the regex flag and without
    negation. *)
Lemma resolveModifiers_Regex (base : string) :
  resolveModifiers (base ++ "Regex") = (base, false, true).
Proof.
  unfold resolveModifiers, slice. rewrite length_append. cbn [String.length].
  replace (String.length base + 5 - 3) with (String.length base + 2) by lia.
  replace (String.length base + 5 - (String.length base + 2)) with 3 by lia.
  replace (String.length base + 5 - 5) with (String.length base + 0) by lia.
  replace (String.length base + 5 - (String.length base + 0)) with 5 by lia.
  rewrite !substring_skip. cbn [substring String.eqb Ascii.eqb Bool.eqb].
  rewrite Nat.add_0_r, Nat.sub_0_r, substring_prefix. reflexivity.
Qed.

(** C1, as amended.  The type "FileContainsNotRegex" ends in "Regex"
    and not in "Not": the test for "Not" fails on it and the test for
    "Regex" succeeds, so it resolves to the name "FileContainsNot",
    without negation and with the regex flag; and that name is none of
    the methods of [checks.go]. *)
Theorem FileContainsNotRegex_resolution (E : Env) (c : cond) :
  Type_ c = "FileContainsNotRegex" ->
  resolveModifiers (Type_ c) = ("FileContainsNot", false, true) /\
  MethodByName E (fst (fst (resolveModifiers (Type_ c)))) = other_methods E "FileContainsNot".
Proof.
  intros ->. change "FileContainsNotRegex" with ("FileContainsNot" ++ "Regex")%string.
  rewrite resolveModifiers_Regex. split; reflexivity.
Qed.

Lemma FileContainsNotRegex_resolution_witness :
  let c := Host.on_path "FileContainsNotRegex" "/etc/motd" "disk" in
  Type_ c = "FileContainsNotRegex" /\
  resolveModifiers (Type_ c) = ("FileContainsNot", false, true) /\
  MethodByName (Host.env true) (fst (fst (resolveModifiers (Type_ c)))) = None.
Proof.
  intros c. split; [reflexivity|].
  apply (FileContainsNotRegex_resolution (Host.env true) c). reflexivity.
Defined.

(** C1, as it is written, fails: the type "FileContainsNotRegex" does
    not resolve to "FileContains" with negation and the regex flag. *)
Lemma FileContainsNotRegex_not_FileContains :
  resolveModifiers "FileContainsNotRegex" <> ("FileContains", true, true).
Proof. vm_compute. discriminate. Qed.

(** The two suffixes in the other order. *)
Example FileContainsRegexNot_resolution :
  resolveModifiers "FileContainsRegexNot" = ("FileContainsRegex", true, false).
Proof. reflexivity. Qed.

(** On the host, evaluating such a condition calls no predicate: the
    name it resolves to is not a method, and [runCheck] reports it. *)
Example FileContainsNotRegex_run :
  snd (runCheck (Host.env false)
         (Host.on_path "FileContainsNotRegex" "/etc/motd" "dracew") ∅)
  = ([EvDebug [AStr ("Running condition:" ++ newline);
               ACond (Host.on_path "FileContainsNotRegex" "/etc/motd" "wecard")];
      EvFail [AStr "Check type does not exist: FileContainsNot";
              AStr "(reflect: call of reflect.Value.Call on zero Value)"]],
     Ret false).
Proof. reflexivity. Qed.

(** * Further properties *)

(** ** More on argument validation *)

Lemma flat_map_nil {A B : Type} (f : A -> list B) (l : list A) :
  (forall x, In x l -> f x = []) -> flat_map f l = [].
Proof.
  induction l as [|x l IH]; intros H; [reflexivity|]. cbn [flat_map].
  rewrite (H x) by (left; reflexivity).
  rewrite IH; [reflexivity|]. intros y Hy. apply H. right. exact Hy.
Qed.

(** X1. A condition in which exactly the required slots are filled
    passes [requireArgs] without a word: nothing is logged and the
    predicate goes on, whatever [fail] does. *)
Theorem requireArgs_silent (E : Env) (c : cond) (args : list string) :
  (forall name v, In (name, v) (slots c) ->
     is_required args name = negb (String.eqb v "")) ->
  requireArgs E c args = ([], Ret tt).
Proof.
  intros Hexact. destruct (String.eqb_spec (Type_ c) "") as [Ht|Ht];
    [apply requireArgs_internal; assumption|].
  rewrite requireArgs_by_slot by assumption. unfold validation_events.
  rewrite flat_map_nil; [reflexivity|].
  intros [name v] Hin. unfold slot_reaction. rewrite (Hexact name v Hin).
  destruct (String.eqb v ""); reflexivity.
Qed.

Lemma requireArgs_silent_witness :
  requireArgs (Host.env true) (Host.on_path "FileContains" "/etc/motd" "disk")
              ["Path"; "Value"] = ([], Ret tt).
Proof.
  apply (requireArgs_silent (Host.env true)).
  intros name v Hin. simpl in Hin.
  repeat (destruct Hin as [[= <- <-]|Hin]; [reflexivity|]). destruct Hin.
Defined.

(** X2. When validation stops a predicate: [requireArgs] lets the
    predicate go on exactly when [fail] returns to its caller, or the
    condition has an empty [Type], or every required slot is filled.
    Unused slots never stop it. *)
Theorem validates_iff (E : Env) (c : cond) (args : list string) :
  validates E c args <->
  fail_exits E = false \/ Type_ c = "" \/
  (forall name v, In (name, v) (slots c) -> is_required args name = true -> v <> "").
Proof.
  split.
  - intros Hv. destruct (fail_exits E) eqn:Hx; [|left; reflexivity].
    destruct (String.eqb_spec (Type_ c) "") as [Ht|Ht]; [right; left; assumption|].
    right. right. intros name v Hin Hreq Hempty.
    unfold validates in Hv. rewrite requireArgs_by_slot in Hv by assumption.
    rewrite (emit_exits E _ _ Hx (missing_reported c args name v Hin Hreq Hempty)) in Hv.
    discriminate Hv.
  - intros [Hx|[Ht|Hall]].
    + apply validates_when_fail_returns; assumption.
    + apply validates_internal; assumption.
    + apply validates_complete; assumption.
Qed.

(** X3. [requireArgs] reads the type and the eight parameter slots of
    a condition and nothing else: two conditions that agree on them,
    whatever their [Hint] and their regex flag, are validated alike,
    event for event. *)
Theorem requireArgs_reads_slots (E : Env) (c c' : cond) (args : list string) :
  Type_ c = Type_ c' -> slots c = slots c' ->
  requireArgs E c args = requireArgs E c' args.
Proof.
  intros Ht Hs. destruct (String.eqb_spec (Type_ c) "") as [He|He].
  - rewrite !requireArgs_internal by congruence. reflexivity.
  - rewrite !requireArgs_by_slot by congruence.
    unfold validation_events. rewrite Ht, Hs. reflexivity.
Qed.

Lemma requireArgs_reads_slots_witness :
  let c := Host.on_path "PathExists" "" "x" in
  let c' := mkCond "look under /etc" "PathExists" "" "" "" "" "" "" "x" "" true in
  requireArgs (Host.env false) c ["Path"] = requireArgs (Host.env false) c' ["Path"].
Proof.
  intros c c'. apply (requireArgs_reads_slots (Host.env false) c c'); reflexivity.
Defined.

(** ** The string form of a condition *)

(** X4. [String] ends every condition with the line of the field
    [regex], since the string form of a boolean field is never empty:
    the result is never the empty string, and for a condition whose
    string fields are all empty, [cond{}] among them, it is that line
    alone. *)
Theorem cond_String_regex_line (c : cond) :
  (exists lines, cond_String c = (lines ++ regex_line)%string) /\
  (all_empty c -> cond_String c = regex_line).
Proof.
  split.
  - unfold cond_String, cond_fields. cbn [fold_left rvalue_String].
    eexists. reflexivity.
  - intros (Hh & Ht & Hs). unfold slots in Hs.
    repeat (apply Forall_cons in Hs as [? Hs]). cbn [snd] in *.
    destruct c; cbn in *; subst. reflexivity.
Qed.

Lemma cond_String_regex_line_witness :
  all_empty (set_regex true cond_zero) /\ cond_String (set_regex true cond_zero) = regex_line.
Proof.
  assert (all_empty (set_regex true cond_zero)) as H
      by (repeat split; repeat constructor).
  split; [exact H|]. apply (cond_String_regex_line (set_regex true cond_zero)). exact H.
Defined.

(** ** More on the predicates *)

Lemma prefix_refl (s : string) : String.prefix s s = true.
Proof.
  induction s as [|a s IH]; [reflexivity|]. cbn.
  destruct (ascii_dec a a); [exact IH|congruence].
Qed.

Lemma strings_Contains_refl (s : string) : strings_Contains s s = true.
Proof. destruct s; cbn [strings_Contains]; rewrite prefix_refl; reflexivity. Qed.

Lemma strings_Contains_empty (s : string) : strings_Contains s "" = true.
Proof. destruct s; reflexivity. Qed.

Section MorePredicates.

Variable E : Env.

Lemma DirContains_search_error_false (c : cond) (files : list string)
      (r : bool) (e : error) :
  result (DirContains_search E c files) = Some (r, Some e) -> r = false.
Proof.
  induction files as [|f files IH]; [discriminate|].
  destruct (result (FileContains E (set_Path c f))) as [[r' err']|] eqn:Hf.
  - rewrite (DirContains_search_step E c f files r' err' Hf).
    destruct (os_IsPermission err'); [congruence|].
    destruct r'; [discriminate|exact IH].
  - cbn [DirContains_search]. rewrite result_bind, Hf. discriminate.
Qed.

(** X5. Five of the six predicates never answer [true] together with
    an error: whenever [CommandContains], [DirContains],
    [FileContains], [FileEquals] or [PathExists] returns an error, its
    boolean is [false].  ([CommandOutput] is the one that can return
    both.) *)
Theorem error_means_false (c : cond) (r : bool) (e : error) :
  (result (CommandContains E c) = Some (r, Some e) -> r = false) /\
  (result (DirContains E c) = Some (r, Some e) -> r = false) /\
  (result (FileContains E c) = Some (r, Some e) -> r = false) /\
  (result (FileEquals E c) = Some (r, Some e) -> r = false) /\
  (result (PathExists E c) = Some (r, Some e) -> r = false).
Proof.
  repeat split.
  - unfold CommandContains. rewrite result_bind.
    destruct (result (requireArgs E c ["Cmd"; "Value"])); [|discriminate].
    destruct (shellCommandOutput E (Cmd c)) as [out [e'|]]; cbn [notNil];
      [rewrite result_mret; congruence|].
    destruct (regex c); rewrite result_mret; [|discriminate].
    unfold regexp_Match. destruct (regexp_Compile E (Value c)); [discriminate|congruence].
  - unfold DirContains. rewrite result_bind.
    destruct (result (requireArgs E c ["Path"; "Value"])); [|discriminate].
    rewrite result_bind, PathExists_result by (apply validates_internal; reflexivity).
    cbn [set_Path Path].
    destruct (os_Stat E (Path c)) as [e'|].
    + destruct (os_IsNotExist (Some e')); cbn [notNil negb]; rewrite result_mret; congruence.
    + cbn [notNil negb]. rewrite result_bind.
      destruct (result (filepath_Walk E (Path c) DirContains_walkFn []))
        as [[files [e'|]]|]; cbn [notNil]; [rewrite result_mret; congruence| |discriminate].
      apply DirContains_search_error_false.
  - apply FileContains_error_false.
  - unfold FileEquals. rewrite result_bind.
    destruct (result (requireArgs E c ["Path"; "Value"])); [|discriminate].
    destruct (readFile E (Path c)) as [content [e'|]]; cbn [notNil]; rewrite result_mret;
      [congruence|discriminate].
  - unfold PathExists. rewrite result_bind.
    destruct (result (requireArgs E c ["Path"])); [|discriminate].
    destruct (os_Stat E (Path c)) as [e'|]; cbn [notNil andb]; [|discriminate].
    destruct (os_IsNotExist (Some e')); rewrite result_mret; [discriminate|congruence].
Qed.

(** X6. A command that succeeds and whose trimmed output is exactly
    [Value] also contains [Value]: whenever [CommandOutput] answers
    [(true, nil)] on a condition without the regex flag,
    [CommandContains] answers [(true, nil)] on it too. *)
Theorem exact_output_is_contained (c : cond) :
  validates E c ["Cmd"; "Value"] -> regex c = false ->
  result (CommandOutput E c) = Some (true, None) ->
  result (CommandContains E c) = Some (true, None).
Proof.
  intros Hv Hr. unfold CommandOutput, CommandContains.
  rewrite !result_validated by assumption.
  destruct (shellCommandOutput E (Cmd c)) as [out [e|]]; rewrite result_mret;
    [discriminate|].
  intros [= Heq]. apply String.eqb_eq in Heq. cbn [notNil]. rewrite Hr, result_mret.
  rewrite Heq, strings_Contains_refl. reflexivity.
Qed.

(** X7. A condition that comes without a [Value] and gets past
    validation (as it does where [fail] returns) finds its empty value
    everywhere: without the regex flag, [FileContains] answers
    [(true, nil)] on every file it can read and [CommandContains] on
    every command that succeeds. *)
Theorem empty_value_is_found (c : cond) :
  Value c = "" -> regex c = false ->
  (validates E c ["Path"; "Value"] -> snd (readFile E (Path c)) = None ->
   result (FileContains E c) = Some (true, None)) /\
  (validates E c ["Cmd"; "Value"] -> snd (shellCommandOutput E (Cmd c)) = None ->
   result (CommandContains E c) = Some (true, None)).
Proof.
  intros Hval Hr. split; intros Hv Hok.
  - unfold FileContains. rewrite result_validated by assumption.
    destruct (readFile E (Path c)) as [content err]. cbn [snd] in Hok. subst err.
    cbn [notNil]. rewrite result_mret.
    destruct (strings_Split content newline) as [|line lines] eqn:Hs;
      [destruct (strings_Split_nonempty _ _ Hs)|].
    cbn [FileContains_loop]. rewrite Hr, Hval, strings_Contains_empty. reflexivity.
  - unfold CommandContains. rewrite result_validated by assumption.
    destruct (shellCommandOutput E (Cmd c)) as [out err]. cbn [snd] in Hok. subst err.
    cbn [notNil]. rewrite Hr, Hval, strings_Contains_empty. reflexivity.
Qed.

End MorePredicates.

Lemma error_means_false_witness :
  let c := Host.on_path "FileContains" "/srv/a" "secret" in
  result (FileContains (Host.env true) c) = Some (false, Some (Host.denied "/srv/a")) /\
  false = false.
Proof.
  intros c.
  assert (result (FileContains (Host.env true) c) = Some (false, Some (Host.denied "/srv/a")))
    as H by reflexivity.
  split; [exact H|].
  destruct (error_means_false (Host.env true) c false (Host.denied "/srv/a"))
    as (_ & _ & Hf & _ & _).
  exact (Hf H).
Defined.

Lemma exact_output_is_contained_witness :
  let c := Host.on_cmd "CommandOutput" "version" "v1.2.3" in
  result (CommandOutput (Host.env true) c) = Some (true, None) /\
  result (CommandContains (Host.env true) c) = Some (true, None).
Proof.
  intros c. split; [reflexivity|].
  apply (exact_output_is_contained (Host.env true) c); reflexivity.
Defined.

Lemma empty_value_is_found_witness :
  result (FileContains (Host.env false) (Host.on_path "FileContains" "/etc/motd" ""))
  = Some (true, None) /\
  result (CommandContains (Host.env false) (Host.on_cmd "CommandContains" "hostname" ""))
  = Some (true, None).
Proof.
  split.
  - apply (empty_value_is_found (Host.env false)
             (Host.on_path "FileContains" "/etc/motd" "")); reflexivity.
  - apply (empty_value_is_found (Host.env false)
             (Host.on_cmd "CommandContains" "hostname" "")); reflexivity.
Defined.

(** ** More on the search of a directory *)

Section MoreDirContains.

Variable E : Env.



(** The loop over the files, when no file raises a permission error
    and none holds the value. *)
Lemma DirContains_search_exhausts (c : cond) (files : list string) :
  Forall (fun f => file_passable E c f /\ ~ file_contains E c f) files ->
  result (DirContains_search E c files) = Some (false, None).
Proof.
  induction 1 as [|f files [(r & err & Hf & Hperm) Hnot] _ IH]; [reflexivity|].
  rewrite (DirContains_search_step E c f files r err Hf), Hperm.
  destruct r; [|exact IH].
  exfalso. apply Hnot. unfold file_contains. rewrite Hf.
  destruct err as [e|]; [|reflexivity].
  discriminate (FileContains_error_false E _ true e Hf).
Qed.

(** The loop over the files answers [true] only at a file that holds
    the value, with files before it that it could pass. *)
Lemma DirContains_search_true (c : cond) (files : list string) :
  result (DirContains_search E c files) = Some (true, None) ->
  exists pre f post, files = pre ++ f :: post /\
    Forall (fun g => file_passable E c g /\ ~ file_contains E c g) pre /\
    file_contains E c f.
Proof.
  induction files as [|f files IH]; [discriminate|].
  destruct (result (FileContains E (set_Path c f))) as [[r err]|] eqn:Hf.
  - rewrite (DirContains_search_step E c f files r err Hf).
    destruct (os_IsPermission err) eqn:Hperm; [discriminate|].
    destruct r.
    + intros _. exists [], f, files. repeat split; [constructor|].
      unfold file_contains. rewrite Hf. destruct err as [e|]; [|reflexivity].
      discriminate (FileContains_error_false E _ true e Hf).
    + intros Hrest. destruct (IH Hrest) as (pre & g & post & -> & Hpre & Hg).
      exists (f :: pre), g, post. repeat split; [|assumption].
      constructor; [|assumption]. split; [exists false, err; auto|].
      unfold file_contains. rewrite Hf. discriminate.
  - cbn [DirContains_search]. rewrite result_bind, Hf. discriminate.
Qed.

(** X8. An error of [os.Stat] other than "does not exist" is what
    [DirContains] returns, with [false], before any walk. *)
Theorem DirContains_stat_error (c : cond) (e : error) :
  validates E c ["Path"; "Value"] ->
  os_Stat E (Path c) = Some e -> os_IsNotExist (Some e) = false ->
  DirContains E c = (fst (requireArgs E c ["Path"; "Value"]), Ret (false, Some e)).
Proof.
  intros Hv Hstat Hne. unfold DirContains, PathExists.
  unfold validates in Hv. destruct (requireArgs E c ["Path"; "Value"]) as [evs o].
  cbn [fst snd] in *. subst o.
  rewrite (requireArgs_internal E (set_Path cond_zero (Path c))) by reflexivity.
  cbn [set_Path Path]. rewrite Hstat, Hne. cbn. rewrite app_nil_r. reflexivity.
Qed.

(** X9. When [DirContains] answers [true].  Below a directory that is
    there and whose walk stayed within the bound, [DirContains]
    returns [(true, nil)] exactly when some file holds the value and
    [FileContains] raised no permission error, and found nothing, on
    the files enumerated before it. *)
Theorem DirContains_true_iff (c : cond) :
  validates E c ["Path"; "Value"] ->
  os_Stat E (Path c) = None -> walk_sound E (Path c) ->
  (Z.of_nat (length (walked_files E (Path c))) <= 10000)%Z ->
  (result (DirContains E c) = Some (true, None) <->
   exists pre f post, walked_files E (Path c) = pre ++ f :: post /\
     Forall (fun g => file_passable E c g /\ ~ file_contains E c g) pre /\
     file_contains E c f).
Proof.
  intros Hv Hstat Hs Hlen. rewrite DirContains_searches by assumption. split.
  - apply DirContains_search_true.
  - intros (pre & f & post & -> & Hpre & Hf).
    apply DirContains_search_finds; [|assumption].
    eapply Forall_impl; [exact Hpre|]. intros g [Hg _]. exact Hg.
Qed.

(** X10. A directory in which no file holds the value, and none
    raises a permission error, gives [(false, nil)]: an empty search
    is an answer, not an error.  So does a directory without files. *)
Theorem DirContains_no_match (c : cond) :
  validates E c ["Path"; "Value"] ->
  os_Stat E (Path c) = None -> walk_sound E (Path c) ->
  (Z.of_nat (length (walked_files E (Path c))) <= 10000)%Z ->
  Forall (fun f => file_passable E c f /\ ~ file_contains E c f) (walked_files E (Path c)) ->
  result (DirContains E c) = Some (false, None).
Proof.
  intros Hv Hstat Hs Hlen Hall. rewrite DirContains_searches by assumption.
  apply DirContains_search_exhausts. assumption.
Qed.


End MoreDirContains.

Lemma DirContains_stat_error_witness :
  let E := mkEnv true true Host.shell Host.files (fun _ => Some (Host.denied "/root"))
                 Host.tree Host.compile Host.trimSpace (fun s => s)
                 Host.flipValue Host.flipValue (fun _ => None) in
  DirContains E (Host.on_path "DirContains" "/root" "secret")
  = ([], Ret (false, Some (Host.denied "/root"))).
Proof.
  intros E.
  apply (DirContains_stat_error E (Host.on_path "DirContains" "/root" "secret")
           (Host.denied "/root")); reflexivity.
Defined.

Lemma DirContains_true_iff_witness :
  let c := Host.on_path "DirContains" "/etc" "disk" in
  result (DirContains (Host.env true) c) = Some (true, None) /\
  exists pre f post, walked_files (Host.env true) (Path c) = pre ++ f :: post /\
    Forall (fun g => file_passable (Host.env true) c g /\ ~ file_contains (Host.env true) c g) pre /\
    file_contains (Host.env true) c f.
Proof.
  intros c.
  assert (result (DirContains (Host.env true) c) = Some (true, None)) as H by reflexivity.
  split; [exact H|].
  apply (DirContains_true_iff (Host.env true) c);
    [reflexivity | reflexivity | repeat constructor; discriminate
    | vm_compute; discriminate | exact H].
Defined.

Lemma DirContains_no_match_witness :
  result (DirContains (Host.env true) (Host.on_path "DirContains" "/etc" "secret"))
  = Some (false, None).
Proof.
  apply (DirContains_no_match (Host.env true) (Host.on_path "DirContains" "/etc" "secret")).
  - reflexivity.
  - reflexivity.
  - repeat constructor; discriminate.
  - vm_compute. discriminate.
  - repeat constructor.
    + exists false, None. split; reflexivity.
    + intros H. vm_compute in H. discriminate H.
Defined.


(** ** More on the modifiers *)

(** A string is what stands before a position and what stands after it. *)
Lemma substring_split (t : string) (m : nat) :
  m <= String.length t ->
  (substring 0 m t ++ substring m (String.length t - m) t)%string = t.
Proof.
  revert m. induction t as [|a t IH]; intros [|m] Hm; cbn in Hm; try lia.
  - reflexivity.
  - cbn [substring String.length Nat.sub].
    change (String a (substring 0 (String.length t) t) = String a t).
    f_equal. specialize (IH 0 ltac:(lia)). rewrite Nat.sub_0_r in IH.
    destruct t; [reflexivity|exact IH].
  - cbn [substring String.length Nat.sub].
    change (String a (substring 0 m t ++ substring m (String.length t - m) t) = String a t).
    f_equal. apply IH. lia.
Qed.

(** The test [t[len(t)-len(suffix):] == suffix] finds a suffix, and
    [t[:len(t)-len(suffix)]] is what stands before it. *)
Lemma suffix_test (t suffix : string) :
  let n := String.length t in
  String.eqb (slice t (n - String.length suffix) n) suffix = true ->
  t = (slice t 0 (n - String.length suffix) ++ suffix)%string.
Proof.
  intros n. set (k := String.length suffix). intros Heq.
  apply String.eqb_eq in Heq. unfold slice in *.
  rewrite Nat.sub_0_r. rewrite <- Heq.
  symmetry. apply substring_split. lia.
Qed.

Lemma last_byte_inj (p q : string) (a b : ascii) :
  (p ++ String a "" = q ++ String b "")%string -> a = b.
Proof.
  revert q. induction p as [|x p IH]; intros [|y q] H.
  - injection H as ->. reflexivity.
  - exfalso. apply (f_equal String.length) in H. rewrite !length_append in H.
    cbn in H. lia.
  - exfalso. apply (f_equal String.length) in H. rewrite !length_append in H.
    cbn in H. lia.
  - cbn in H. injection H as _ H. exact (IH q H).
Qed.

Lemma append_assoc (a b c : string) : ((a ++ b) ++ c = a ++ (b ++ c))%string.
Proof.
  induction a as [|x a IH]; [reflexivity|].
  change (String x ((a ++ b) ++ c) = String x (a ++ (b ++ c)))%string. f_equal. exact IH.
Qed.

(** No string ends both in "Not" and in "Regex". *)
Lemma Not_or_Regex (p q : string) : (p ++ "Not")%string <> (q ++ "Regex")%string.
Proof.
  change "Not" with ("No" ++ "t")%string. change "Regex" with ("Rege" ++ "x")%string.
  rewrite <- !append_assoc. intros H. apply last_byte_inj in H. discriminate H.
Qed.

(** X12. What the two suffix tests of [runCheck] can make of a
    condition type that passed the length test: either nothing (the
    name is the type, no flag), or a trailing "Not" is cut off (with
    negation, and without the regex flag), or a trailing "Regex" is
    cut off (with the regex flag, and without negation).  The name is
    always the type less one suffix, and no type is resolved as both
    negated and regex. *)
Theorem resolveModifiers_cases (t : string) :
  String.length "Regex" < String.length t ->
  resolveModifiers t = (t, false, false) \/
  (exists base, t = (base ++ "Not")%string /\ resolveModifiers t = (base, true, false)) \/
  (exists base, t = (base ++ "Regex")%string /\ resolveModifiers t = (base, false, true)).
Proof.
  intros _. unfold resolveModifiers.
  pose proof (suffix_test t "Not") as HN. pose proof (suffix_test t "Regex") as HR.
  cbv zeta in HN, HR.
  destruct (String.eqb (slice t (String.length t - String.length "Not") (String.length t)) "Not");
    destruct (String.eqb (slice t (String.length t - String.length "Regex") (String.length t))
                         "Regex").
  - exfalso. specialize (HN eq_refl). specialize (HR eq_refl).
    rewrite HN in HR at 1. exact (Not_or_Regex _ _ HR).
  - right. left. eexists. split; [exact (HN eq_refl)|reflexivity].
  - right. right. eexists. split; [exact (HR eq_refl)|reflexivity].
  - left. reflexivity.
Qed.

Lemma resolveModifiers_cases_witness :
  resolveModifiers "PathExists" = ("PathExists", false, false) \/
  (exists base, "PathExists" = (base ++ "Not")%string
                /\ resolveModifiers "PathExists" = (base, true, false)) \/
  (exists base, "PathExists" = (base ++ "Regex")%string
                /\ resolveModifiers "PathExists" = (base, false, true)).
Proof. apply (resolveModifiers_cases "PathExists"). simpl. lia. Defined.


(** ** The log of [runCheck] *)

Lemma St_bind_unfold {A B : Type} (f : A -> St B) (m : St A) (σ : gmap positive cond) :
  (m ≫= f) σ = match m σ with
               | (σ1, (evs, Ret a)) =>
                   (fst (f a σ1), (evs ++ fst (snd (f a σ1)), snd (snd (f a σ1))))
               | (σ1, (evs, Panic p)) => (σ1, (evs, Panic p))
               | (σ1, (evs, Exit)) => (σ1, (evs, Exit))
               end.
Proof.
  unfold mbind, St_bind. destruct (m σ) as [σ1 [evs [a|q|]]]; try reflexivity.
  destruct (f a σ1) as [σ2 [evs' o]]. reflexivity.
Qed.

Section Runs.

Context {A B : Type}.

Lemma runs_logs (p : positive) (c c' : cond) (m : St A) (r : L A) :
  runs p c m r c' -> logs p c m r.
Proof.
  intros Hm σ Hσ. destruct (Hm σ Hσ) as (Hr & c'' & Hc & _). split; [assumption|eauto].
Qed.

Lemma logs_eq (p : positive) (c : cond) (m : St A) (r r' : L A) :
  logs p c m r -> r = r' -> logs p c m r'.
Proof. intros H <-. exact H. Qed.

Lemma runs_mret (p : positive) (c : cond) (a : A) : runs p c (mret a : St A) (mret a) c.
Proof. intros σ Hσ. split; [reflexivity|]. exists c. auto. Qed.

Lemma runs_lift (p : positive) (c : cond) (m : L A) : runs p c (lift m) m c.
Proof. intros σ Hσ. split; [reflexivity|]. exists c. auto. Qed.

Lemma runs_bind (p : positive) (c c1 c2 : cond) (m : St A) (f : A -> St B)
      (r1 : L A) (k : A -> L B) :
  runs p c m r1 c1 ->
  (forall a, snd r1 = Ret a -> runs p c1 (f a) (k a) c2) ->
  runs p c (m ≫= f) (r1 ≫= k) c2.
Proof.
  intros Hm Hf σ Hσ. destruct (Hm σ Hσ) as (Hr & c'' & Hc & Hret).
  rewrite St_bind_unfold, L_bind_unfold.
  destruct (m σ) as [σ1 [evs o]]. cbn [fst snd] in *.
  subst r1. cbn [snd] in *. destruct o as [a|q|].
  - rewrite (Hret a eq_refl) in Hc.
    destruct (Hf a eq_refl σ1 Hc) as (Hr2 & c3 & Hc3 & Hret3).
    cbn [fst snd]. rewrite Hr2. split; [reflexivity|].
    exists c3. split; [assumption|]. intros b Hb. exact (Hret3 b Hb).
  - split; [reflexivity|]. exists c''. split; [assumption|]. intros b [=].
  - split; [reflexivity|]. exists c''. split; [assumption|]. intros b [=].
Qed.

Lemma logs_bind (p : positive) (c c1 : cond) (m : St A) (f : A -> St B)
      (r1 : L A) (k : A -> L B) :
  runs p c m r1 c1 ->
  (forall a, snd r1 = Ret a -> logs p c1 (f a) (k a)) ->
  logs p c (m ≫= f) (r1 ≫= k).
Proof.
  intros Hm Hf σ Hσ. destruct (Hm σ Hσ) as (Hr & c'' & Hc & Hret).
  rewrite St_bind_unfold, L_bind_unfold.
  destruct (m σ) as [σ1 [evs o]]. cbn [fst snd] in *.
  subst r1. cbn [snd] in *. destruct o as [a|q|].
  - rewrite (Hret a eq_refl) in Hc.
    destruct (Hf a eq_refl σ1 Hc) as (Hr2 & Hsome).
    cbn [fst snd]. rewrite Hr2. auto.
  - split; [reflexivity|eauto].
  - split; [reflexivity|eauto].
Qed.

Lemma logs_defer_recovering (p : positive) (c : cond) (h : option panicValue -> L unit)
      (zero : A) (body : St A) (r : L A) :
  logs p c body r ->
  logs p c (defer_recovering (fun q => lift (h q)) zero body) (recovered h zero r).
Proof.
  intros Hb σ Hσ. destruct (Hb σ Hσ) as (Hr & Hsome).
  unfold defer_recovering, recovered, lift.
  destruct (body σ) as [σ1 [evs o]]. cbn [fst snd] in *. subst r.
  destruct o as [a|q|].
  - destruct (h None) as [evs' [[]|q'|]]; auto.
  - destruct (h (Some q)) as [evs' [[]|q'|]]; auto.
  - auto.
Qed.

(** A deferred call that returns without a word leaves the log and the
    outcome of the body as they are. *)
Lemma logs_defer (p : positive) (c : cond) (d : St unit) (body : St A) (r : L A) :
  logs p c body r ->
  (forall c1, logs p c1 d ([], Ret tt)) ->
  logs p c (defer d body) r.
Proof.
  intros Hb Hd σ Hσ. destruct (Hb σ Hσ) as (Hr & [c1 Hc1]).
  unfold defer. destruct (body σ) as [σ1 [evs o]]. cbn [fst snd] in *. subst r.
  destruct (Hd c1 σ1 Hc1) as (Hrd & Hsome).
  destruct (d σ1) as [σ2 [evs' o']]. cbn [fst snd] in *. injection Hrd as -> ->.
  rewrite app_nil_r. destruct o; eauto.
Qed.

End Runs.

(** A step that returns without a word, then the rest. *)
Lemma logs_bind_silent {A B : Type} (p : positive) (c c1 : cond) (m : St A)
      (f : A -> St B) (a : A) (r : L B) :
  runs p c m (mret a) c1 -> logs p c1 (f a) r -> logs p c (m ≫= f) r.
Proof.
  intros Hm Hf. eapply logs_eq.
  - eapply logs_bind with (k := fun _ => r); [exact Hm|].
    intros a' [= <-]. exact Hf.
  - rewrite L_bind_mret_l. reflexivity.
Qed.

Lemma runs_load (p : positive) (c : cond) : runs p c (load p) (mret c) c.
Proof.
  intros σ Hσ. unfold load. rewrite Hσ. split; [reflexivity|]. exists c. auto.
Qed.

Lemma runs_store (p : positive) (c v : cond) : runs p c (store p v) (mret tt) v.
Proof.
  intros σ Hσ. split; [reflexivity|]. exists v. cbn. split; [apply lookup_insert_eq|auto].
Qed.

Section LogOfRunCheck.

Variable E : Env.

Lemma runs_deobfuscate (p : positive) (c : cond) :
  runs p c (deobfuscateCond_at E p) (mret (snd (deobfuscateCond E c)))
       (fst (deobfuscateCond E c)).
Proof.
  unfold deobfuscateCond_at. destruct (deobfuscateCond E c) as [c' err] eqn:Hd. cbn [fst snd].
  replace (mret err : L (option error))
    with (mret c ≫= fun c0 : cond =>
            let '(_, err0) := deobfuscateCond E c0 in
            (mret tt : L unit) ≫= fun _ => (mret err0 : L (option error)))
    by (rewrite L_bind_mret_l, Hd; reflexivity).
  eapply runs_bind; [apply runs_load|].
  intros c0 [= <-]. rewrite Hd.
  eapply runs_bind; [apply runs_store|]. intros _ _. apply runs_mret.
Qed.

Lemma runs_obfuscate (p : positive) (c : cond) :
  runs p c (obfuscateCond_at E p) (mret (snd (obfuscateCond E c)))
       (fst (obfuscateCond E c)).
Proof.
  unfold obfuscateCond_at. destruct (obfuscateCond E c) as [c' err] eqn:Hd. cbn [fst snd].
  replace (mret err : L (option error))
    with (mret c ≫= fun c0 : cond =>
            let '(_, err0) := obfuscateCond E c0 in
            (mret tt : L unit) ≫= fun _ => (mret err0 : L (option error)))
    by (rewrite L_bind_mret_l, Hd; reflexivity).
  eapply runs_bind; [apply runs_load|].
  intros c0 [= <-]. rewrite Hd.
  eapply runs_bind; [apply runs_store|]. intros _ _. apply runs_mret.
Qed.

Lemma logs_obfuscate (p : positive) (c : cond) :
  logs p c (obfuscateCond_at E p ;; mret tt) ([], Ret tt).
Proof.
  eapply logs_eq.
  - eapply logs_bind; [apply runs_obfuscate|]. intros err _.
    eapply runs_logs, runs_mret.
  - reflexivity.
Qed.

Lemma logs_runCheck_call (p : positive) (c : cond) (condFunc : string) (negation : bool) :
  logs p c (runCheck_call E p condFunc negation) (runCheck_call_log E c condFunc negation).
Proof.
  unfold runCheck_call.
  eapply logs_eq.
  - eapply logs_bind with (k := fun c0 => runCheck_call_log E c0 condFunc negation);
      [apply runs_load|].
    intros c0 _. unfold runCheck_call_log.
    eapply logs_bind; [apply runs_lift|]. intros vals _.
    eapply runs_logs, runs_lift.
  - rewrite L_bind_mret_l. reflexivity.
Qed.

Lemma logs_runCheck_body (p : positive) (c1 : cond) :
  logs p c1 (runCheck_body E p) (runCheck_body_log E c1).
Proof.
  unfold runCheck_body, runCheck_body_log.
  eapply logs_bind_silent; [apply runs_load|].
  eapply logs_bind; [apply runs_lift|]. intros _ _.
  eapply logs_bind_silent; [apply runs_store|].
  eapply logs_bind_silent; [apply runs_load|].
  cbv zeta.
  destruct (Nat.leb (String.length (Type_ (set_regex false c1))) (String.length "Regex")).
  - eapply logs_bind; [apply runs_lift|]. intros _ _. eapply runs_logs, runs_mret.
  - destruct (resolveModifiers (Type_ (set_regex false c1))) as [[condFunc negation] rx].
    eapply logs_bind_silent with (c1 := set_regex rx (set_regex false c1)).
    + destruct rx; [apply runs_store|apply runs_mret].
    + apply logs_defer_recovering with (h := handleReflectPanic E condFunc).
      apply logs_runCheck_call.
Qed.

Lemma logs_runCheck_at (p : positive) (arg : cond) :
  logs p arg (runCheck_at E p) (runCheck_log E arg).
Proof.
  unfold runCheck_at, runCheck_log.
  eapply logs_bind_silent; [apply runs_deobfuscate|].
  eapply logs_bind with (c1 := fst (deobfuscateCond E arg)).
  - destruct (notNil (snd (deobfuscateCond E arg))); [apply runs_lift|apply runs_mret].
  - intros _ _. apply logs_defer; [apply logs_runCheck_body|].
    intros c1. apply logs_obfuscate.
Qed.

(** The log and the outcome of [runCheck] are those of [runCheck_log],
    whatever the store. *)
Lemma runCheck_logs (arg : cond) (σ : gmap positive cond) :
  snd (runCheck E arg σ) = runCheck_log E arg.
Proof.
  destruct (logs_runCheck_at (fresh (dom σ)) arg (<[fresh (dom σ) := arg]> σ))
    as [Hr _]; [apply lookup_insert_eq|].
  unfold runCheck. rewrite St_bind_unfold. unfold new_var. cbn [mret L_ret fst snd app].
  rewrite <- Hr. destruct (runCheck_at E _ _) as [σ' [evs o]]. reflexivity.
Qed.

End LogOfRunCheck.

(** ** The paths of [runCheck] that call no predicate *)

Lemma outcome_bind_ret {A B : Type} (m : L A) (k : A -> L B) (b : B) :
  snd (m ≫= k) = Ret b -> exists a, snd m = Ret a /\ snd (k a) = Ret b.
Proof.
  rewrite L_bind_unfold. destruct m as [evs [a|q|]]; try discriminate. eauto.
Qed.

Section RunCheckPaths.

Variable E : Env.

(** What [runCheck] logs once deobfuscation went well. *)
Lemma runCheck_log_deobfuscated (arg : cond) :
  snd (deobfuscateCond E arg) = None ->
  runCheck_log E arg = runCheck_body_log E (fst (deobfuscateCond E arg)).
Proof.
  intros Hd. unfold runCheck_log. rewrite Hd. cbn [notNil].
  rewrite L_bind_mret_l. reflexivity.
Qed.

(** What the body logs when the type passes the length test. *)
Lemma runCheck_body_log_dispatch (c1 : cond) :
  String.length "Regex" < String.length (Type_ c1) ->
  runCheck_body_log E c1
  = (debug [AStr ("Running condition:" ++ newline); ACond c1] ;;
     recovered (handleReflectPanic E (fst (fst (resolveModifiers (Type_ c1))))) false
       (runCheck_call_log E (set_regex (snd (resolveModifiers (Type_ c1))) (set_regex false c1))
          (fst (fst (resolveModifiers (Type_ c1))))
          (snd (fst (resolveModifiers (Type_ c1)))))).
Proof.
  intros Hlen. unfold runCheck_body_log. cbv zeta.
  change (Type_ (set_regex false c1)) with (Type_ c1).
  apply Nat.leb_gt in Hlen. rewrite Hlen.
  destruct (resolveModifiers (Type_ c1)) as [[condFunc negation] rx]. reflexivity.
Qed.

(** The verdict on a first value that is a string. *)
Lemma verdict_not_bool (condFunc : string) (negation : bool) (s : string)
      (rest : list rvalue) :
  verdict E condFunc negation (RString s :: rest)
  = ([], Panic (PValueError "reflect.Value.Bool" "string")).
Proof. reflexivity. Qed.

(** A panic with a [reflect.ValueError] is recovered and reported. *)
Lemma recovered_ValueError (condFunc : string) (evs : list event) (method kind : string) :
  recovered (handleReflectPanic E condFunc) false (evs, Panic (PValueError method kind))
  = (evs ++ [EvFail [AStr ("Check type does not exist: " ++ condFunc);
                     AStr ("(" ++ ValueError_Error method kind ++ ")")]],
     if fail_exits E then Exit else Ret false).
Proof.
  unfold recovered, handleReflectPanic, fail. destruct (fail_exits E); reflexivity.
Qed.

End RunCheckPaths.

Section RunCheckEdges.

Variable E : Env.

(** X14. A condition whose type is no longer than "Regex" (the empty
    type, "Not", "Regex") is turned down before any lookup: after
    the opening line of [debug], [runCheck] calls [fail] with the
    message on the length and returns [false], or the process exits
    where [fail] is fatal.  No predicate is called. *)
Theorem runCheck_too_short (arg : cond) (σ : gmap positive cond) :
  snd (deobfuscateCond E arg) = None ->
  String.length (Type_ (fst (deobfuscateCond E arg))) <= String.length "Regex" ->
  snd (runCheck E arg σ)
  = ([running (fst (deobfuscateCond E arg));
      EvFail [AStr (too_short (Type_ (fst (deobfuscateCond E arg))))]],
     if fail_exits E then Exit else Ret false).
Proof.
  intros Hd Hlen. rewrite runCheck_logs, runCheck_log_deobfuscated by assumption.
  unfold runCheck_body_log. cbv zeta.
  change (Type_ (set_regex false (fst (deobfuscateCond E arg))))
    with (Type_ (fst (deobfuscateCond E arg))).
  apply Nat.leb_le in Hlen. rewrite Hlen.
  unfold fail, debug, running. destruct (fail_exits E); reflexivity.
Qed.

(** X15. A condition whose name, the modifiers cut off, is no method
    of [cond] is reported and fails: [runCheck] recovers the panic of
    the reflective call, calls [fail] with "Check type does not
    exist: " and the name, and returns [false] (or the process exits
    where [fail] is fatal). *)
Theorem runCheck_unknown_method (arg : cond) (σ : gmap positive cond) :
  let c := fst (deobfuscateCond E arg) in
  let condFunc := fst (fst (resolveModifiers (Type_ c))) in
  snd (deobfuscateCond E arg) = None ->
  String.length "Regex" < String.length (Type_ c) ->
  MethodByName E condFunc = None ->
  snd (runCheck E arg σ)
  = ([running c;
      EvFail [AStr ("Check type does not exist: " ++ condFunc);
              AStr "(reflect: call of reflect.Value.Call on zero Value)"]],
     if fail_exits E then Exit else Ret false).
Proof.
  intros c condFunc Hd Hlen Hm.
  rewrite runCheck_logs, runCheck_log_deobfuscated, runCheck_body_log_dispatch by assumption.
  fold c. fold condFunc. unfold runCheck_call_log. rewrite Hm.
  unfold reflect_Call, panic, debug, running. rewrite L_bind_unfold. cbv beta.
  rewrite (L_bind_unfold _ ([], Panic _)).
  rewrite (recovered_ValueError E condFunc [] "reflect.Value.Call" "").
  reflexivity.
Qed.

(** X16. A method of [cond] that does not return a boolean first is
    no predicate, and is reported like a name that does not exist:
    [String] is such a method, so a type like "StringNot" ends in
    "Check type does not exist: String" and [false]. *)
Theorem runCheck_not_a_predicate (arg : cond) (σ : gmap positive cond)
        (method : cond -> L (list rvalue)) (evs : list event) (s : string)
        (rest : list rvalue) :
  let c := fst (deobfuscateCond E arg) in
  let condFunc := fst (fst (resolveModifiers (Type_ c))) in
  let rx := snd (resolveModifiers (Type_ c)) in
  snd (deobfuscateCond E arg) = None ->
  String.length "Regex" < String.length (Type_ c) ->
  MethodByName E condFunc = Some method ->
  method (set_regex rx (set_regex false c)) = (evs, Ret (RString s :: rest)) ->
  snd (runCheck E arg σ)
  = (running c :: evs ++
      [EvFail [AStr ("Check type does not exist: " ++ condFunc);
               AStr "(reflect: call of reflect.Value.Bool on string Value)"]],
     if fail_exits E then Exit else Ret false).
Proof.
  intros c condFunc rx Hd Hlen Hm Hcall.
  rewrite runCheck_logs, runCheck_log_deobfuscated, runCheck_body_log_dispatch by assumption.
  fold c. fold condFunc. fold rx. unfold runCheck_call_log. rewrite Hm.
  unfold reflect_Call, debug, running. rewrite Hcall, L_bind_unfold. cbv beta.
  rewrite (L_bind_unfold _ (evs, Ret _)), verdict_not_bool.
  cbn [fst snd]. rewrite app_nil_r, recovered_ValueError. reflexivity.
Qed.


End RunCheckEdges.

Lemma runCheck_too_short_witness :
  snd (runCheck (Host.env false) (Host.on_path "Regex" "/etc/motd" "") ∅)
  = ([running (Host.on_path "Regex" "/etc/motd" "");
      EvFail [AStr (too_short "Regex")]], Ret false).
Proof.
  apply (runCheck_too_short (Host.env false) (Host.on_path "Regex" "/etc/motd" "") ∅);
    [reflexivity | simpl; lia].
Defined.

Lemma runCheck_unknown_method_witness :
  snd (runCheck (Host.env true) (Host.on_path "FileContainsRegexNot" "/etc/motd" "") ∅)
  = ([running (Host.on_path "FileContainsRegexNot" "/etc/motd" "");
      EvFail [AStr "Check type does not exist: FileContainsRegex";
              AStr "(reflect: call of reflect.Value.Call on zero Value)"]], Exit).
Proof.
  apply (runCheck_unknown_method (Host.env true)
           (Host.on_path "FileContainsRegexNot" "/etc/motd" "") ∅);
    [reflexivity | simpl; lia | reflexivity].
Defined.

Lemma runCheck_not_a_predicate_witness :
  snd (runCheck (Host.env false) (Host.on_path "StringNot" "" "") ∅)
  = ([running (Host.on_path "StringNot" "" "");
      EvFail [AStr "Check type does not exist: String";
              AStr "(reflect: call of reflect.Value.Bool on string Value)"]], Ret false).
Proof.
  apply (runCheck_not_a_predicate (Host.env false) (Host.on_path "StringNot" "" "") ∅
           (fun c => mret [RString (cond_String c)]) []
           (cond_String (Host.on_path "StringNot" "" "")) []);
    [reflexivity | simpl; lia | reflexivity | reflexivity].
Defined.


(** ** When a check passes *)

Section Passing.

Variable E : Env.

Lemma index_returns (vals : list rvalue) (i : nat) (v : rvalue) :
  snd (index vals i) = Ret v -> nth_error vals i = Some v.
Proof. unfold index. destruct (nth_error vals i); [intros [= ->]; reflexivity|discriminate]. Qed.

Lemma reflect_Bool_returns (v : rvalue) (b : bool) :
  snd (reflect_Bool v) = Ret b -> v = RBool b.
Proof. destruct v; try discriminate. intros [= ->]. reflexivity. Qed.

Lemma reflect_IsNil_returns (v : rvalue) (b : bool) :
  snd (reflect_IsNil v) = Ret b -> exists err, v = RError err /\ b = isNil err.
Proof. destruct v; try discriminate. intros [= <-]. eauto. Qed.

(** The verdict is [true] only on a boolean that agrees with the
    negation and a nil error. *)
Lemma verdict_true (condFunc : string) (negation : bool) (vals : list rvalue) :
  snd (verdict E condFunc negation vals) = Ret true ->
  nth_error vals 0 = Some (RBool (negb negation)) /\
  nth_error vals 1 = Some (RError None).
Proof.
  unfold verdict. intros H.
  apply outcome_bind_ret in H as (res & Hres & H).
  apply outcome_bind_ret in Hres as (v & Hv & Hres).
  apply index_returns in Hv. apply reflect_Bool_returns in Hres. subst v.
  apply outcome_bind_ret in H as (ev & Hev & H). apply index_returns in Hev.
  destruct negation.
  - apply outcome_bind_ret in H as (_ & _ & H).
    apply outcome_bind_ret in H as (isnil & Hnil & H).
    apply reflect_IsNil_returns in Hnil as (err & -> & ->).
    injection H as H. apply andb_prop in H as [Herr Hr].
    destruct err; [discriminate|]. destruct res; [discriminate|]. auto.
  - apply outcome_bind_ret in H as (_ & _ & H).
    apply outcome_bind_ret in H as (_ & _ & H).
    apply outcome_bind_ret in H as (isnil & Hnil & H).
    apply reflect_IsNil_returns in Hnil as (err & -> & ->).
    injection H as H. apply andb_prop in H as [Herr Hr].
    destruct err; [discriminate|]. subst res. auto.
Qed.

(** A recovered panic gives [false]: what comes out [true] went in
    [true]. *)
Lemma recovered_true (condFunc : string) (r : L bool) :
  snd (recovered (handleReflectPanic E condFunc) false r) = Ret true -> snd r = Ret true.
Proof.
  destruct r as [evs [b|[m k|msg]|]]; unfold recovered, handleReflectPanic, fail, panic;
    cbn; try discriminate.
  - tauto.
  - destruct (fail_exits E); discriminate.
Qed.

Lemma recovered_outcomes (condFunc : string) (r : L bool) :
  (exists b, snd (recovered (handleReflectPanic E condFunc) false r) = Ret b) \/
  snd (recovered (handleReflectPanic E condFunc) false r) = Exit \/
  snd (recovered (handleReflectPanic E condFunc) false r)
  = Panic (PRuntimeError "interface conversion: interface is not a reflect.ValueError").
Proof.
  destruct r as [evs [b|[m k|msg]|]]; unfold recovered, handleReflectPanic, fail, panic;
    cbn; eauto.
  destruct (fail_exits E); cbn; eauto.
Qed.

(** X18. A check passes only on a verdict.  If [runCheck] returns
    [true], then the condition type passed the length test, the name
    it resolves to is a method of [cond], and that method has
    returned: first a boolean, [true] without negation and [false]
    with it, then a nil error.  A type that is too short, a name that
    is no method, a panic and an error never pass. *)
Theorem runCheck_true_sound (arg : cond) (σ : gmap positive cond) :
  let c := set_regex false (fst (deobfuscateCond E arg)) in
  let condFunc := fst (fst (resolveModifiers (Type_ c))) in
  let negation := snd (fst (resolveModifiers (Type_ c))) in
  let rx := snd (resolveModifiers (Type_ c)) in
  snd (snd (runCheck E arg σ)) = Ret true ->
  String.length "Regex" < String.length (Type_ c) /\
  exists method evs vals,
    MethodByName E condFunc = Some method /\
    method (set_regex rx c) = (evs, Ret vals) /\
    nth_error vals 0 = Some (RBool (negb negation)) /\
    nth_error vals 1 = Some (RError None).
Proof.
  intros c condFunc negation rx H.
  rewrite runCheck_logs in H. unfold runCheck_log in H.
  apply outcome_bind_ret in H as (_ & _ & H).
  unfold runCheck_body_log in H.
  apply outcome_bind_ret in H as (_ & _ & H). cbv zeta in H. fold c in H.
  destruct (Nat.leb (String.length (Type_ c)) (String.length "Regex")) eqn:Hlen.
  - apply outcome_bind_ret in H as (_ & _ & H). discriminate H.
  - apply Nat.leb_gt in Hlen. split; [exact Hlen|].
    subst condFunc negation rx.
    destruct (resolveModifiers (Type_ c)) as [[condFunc negation] rx]. cbn [fst snd].
    apply recovered_true in H. unfold runCheck_call_log in H.
    apply outcome_bind_ret in H as (vals & Hcall & H).
    apply verdict_true in H as [H0 H1].
    unfold reflect_Call in Hcall.
    destruct (MethodByName E condFunc) as [method|]; [|discriminate].
    exists method, (fst (method (set_regex rx c))), vals.
    repeat split; try assumption.
    destruct (method (set_regex rx c)) as [evs o]. cbn [fst snd] in *. congruence.
Qed.

(** X19. How [runCheck] can end.  It returns a boolean, or the process
    exits under it, or it panics on the type assertion of
    [handleReflectPanic]: a panic with a [reflect.ValueError] never
    leaves [runCheck]. *)
Theorem runCheck_outcomes (arg : cond) (σ : gmap positive cond) :
  (exists b, snd (snd (runCheck E arg σ)) = Ret b) \/
  snd (snd (runCheck E arg σ)) = Exit \/
  snd (snd (runCheck E arg σ))
  = Panic (PRuntimeError "interface conversion: interface is not a reflect.ValueError").
Proof.
  rewrite runCheck_logs. unfold runCheck_log. rewrite L_bind_unfold.
  assert (forall c1,
    (exists b, snd (runCheck_body_log E c1) = Ret b) \/
    snd (runCheck_body_log E c1) = Exit \/
    snd (runCheck_body_log E c1)
    = Panic (PRuntimeError "interface conversion: interface is not a reflect.ValueError"))
    as Hbody.
  { intros c1. unfold runCheck_body_log, debug. rewrite L_bind_unfold. cbv zeta beta.
    cbn [snd].
    destruct (Nat.leb _ _).
    - unfold fail. destruct (fail_exits E); cbn; eauto.
    - destruct (resolveModifiers _) as [[condFunc negation] rx].
      apply recovered_outcomes. }
  destruct (notNil (snd (deobfuscateCond E arg))).
  - unfold fail. destruct (fail_exits E); cbn [snd]; [auto|apply Hbody].
  - cbn [snd mret L_ret]. apply Hbody.
Qed.

(** X20. [PathExists] and its negation, end to end.  On a condition
    that deobfuscates without error and passes validation, the type
    "PathExists" makes [runCheck] return whether [os.Stat] succeeded,
    and "PathExistsNot" whether [os.Stat] reported that the path does
    not exist.  On any other error of [os.Stat] both return [false]:
    the negated check is not the complement of the plain one. *)
Theorem runCheck_PathExists (arg c : cond) (σ : gmap positive cond) :
  deobfuscateCond E arg = (c, None) ->
  validates E (set_regex false c) ["Path"] ->
  (Type_ c = "PathExists" ->
   snd (snd (runCheck E arg σ)) = Ret (isNil (os_Stat E (Path c)))) /\
  (Type_ c = "PathExistsNot" ->
   snd (snd (runCheck E arg σ)) = Ret (os_IsNotExist (os_Stat E (Path c)))).
Proof.
  intros Hd Hv.
  pose proof (PathExists_result E (set_regex false c) Hv) as Hres. cbn [set_regex Path] in Hres.
  split; intros Ht.
  - pose proof (runCheck_returns E arg σ (fun c => as_values (PathExists E c))
                  (fst (PathExists E (set_regex false c)))) as H.
    cbv zeta in H. rewrite Hd in H. cbn [fst snd] in H.
    change (Type_ (set_regex false c)) with (Type_ c) in H. rewrite Ht in H.
    change (resolveModifiers "PathExists") with ("PathExists", false, false) in H.
    cbn [fst snd] in H.
    destruct (os_Stat E (Path c)) as [e|] eqn:Hstat.
    + destruct (os_IsNotExist (Some e)) eqn:Hne.
      * apply (H false None); [left; reflexivity | simpl; lia | reflexivity|].
        apply as_values_returns. exact Hres.
      * apply (H false (Some e)); [left; reflexivity | simpl; lia | reflexivity|].
        apply as_values_returns. exact Hres.
    + apply (H true None); [left; reflexivity | simpl; lia | reflexivity|].
      apply as_values_returns. exact Hres.
  - pose proof (runCheck_returns E arg σ (fun c => as_values (PathExists E c))
                  (fst (PathExists E (set_regex false c)))) as H.
    cbv zeta in H. rewrite Hd in H. cbn [fst snd] in H.
    change (Type_ (set_regex false c)) with (Type_ c) in H. rewrite Ht in H.
    change (resolveModifiers "PathExistsNot") with ("PathExists", true, false) in H.
    cbn [fst snd] in H.
    destruct (os_Stat E (Path c)) as [e|] eqn:Hstat.
    + destruct (os_IsNotExist (Some e)) eqn:Hne.
      * apply (H false None); [left; reflexivity | simpl; lia | reflexivity|].
        apply as_values_returns. exact Hres.
      * apply (H false (Some e)); [left; reflexivity | simpl; lia | reflexivity|].
        apply as_values_returns. exact Hres.
    + apply (H true None); [left; reflexivity | simpl; lia | reflexivity|].
      apply as_values_returns. exact Hres.
Qed.

End Passing.

Lemma runCheck_true_sound_witness :
  let E := Host.env true in
  exists method evs vals,
    MethodByName E "FileContains" = Some method /\
    method (Host.on_path "FileContains" "/etc/motd" "welcome") = (evs, Ret vals) /\
    nth_error vals 0 = Some (RBool true) /\
    nth_error vals 1 = Some (RError None).
Proof.
  intros E.
  destruct (runCheck_true_sound E (Host.on_path "FileContains" "/etc/motd" "emoclew") ∅)
    as [_ H]; [vm_compute; reflexivity | exact H].
Defined.

Lemma runCheck_PathExists_witness :
  let E := Host.env true in
  snd (snd (runCheck E (Host.on_path "PathExists" "/etc/motd" "") ∅)) = Ret true /\
  snd (snd (runCheck E (Host.on_path "PathExistsNot" "/nowhere" "") ∅)) = Ret true.
Proof.
  intros E. split.
  - destruct (runCheck_PathExists E (Host.on_path "PathExists" "/etc/motd" "")
                (Host.on_path "PathExists" "/etc/motd" "") ∅) as [H _];
      [reflexivity | reflexivity | exact (H eq_refl)].
  - destruct (runCheck_PathExists E (Host.on_path "PathExistsNot" "/nowhere" "")
                (Host.on_path "PathExistsNot" "/nowhere" "") ∅) as [_ H];
      [reflexivity | reflexivity | exact (H eq_refl)].
Defined.

(** ** A condition that does not deobfuscate *)

(** X21. When [deobfuscateCond] returns an error, [runCheck] reports
    it with [fail] and, unless that ends the process, carries on with
    whatever [deobfuscateCond] left in the condition: from there on it
    logs and answers as on a condition that deobfuscates to the same
    without an error. *)
Theorem runCheck_deobfuscate_error (E : Env) (arg arg' : cond) (e : error)
        (σ σ' : gmap positive cond) :
  snd (deobfuscateCond E arg) = Some e ->
  deobfuscateCond E arg' = (fst (deobfuscateCond E arg), None) ->
  snd (runCheck E arg σ)
  = if fail_exits E then ([EvFail [AStr (Error e)]], Exit)
    else (EvFail [AStr (Error e)] :: fst (snd (runCheck E arg' σ')),
          snd (snd (runCheck E arg' σ'))).
Proof.
  intros He Hd'. rewrite !runCheck_logs. unfold runCheck_log.
  rewrite He, Hd'. cbn [notNil fst snd error_text].
  rewrite (L_bind_mret_l tt). rewrite L_bind_unfold. unfold fail.
  destruct (fail_exits E); [reflexivity|].
  destruct (runCheck_body_log E (fst (deobfuscateCond E arg))) as [evs o].
  reflexivity.
Qed.

Lemma runCheck_deobfuscate_error_witness :
  let broken := mkError ErrOther "cipher: message authentication failed" in
  let deobf := fun c : cond =>
    (Host.on_path "PathExists" "/etc" "",
     if String.eqb (Hint c) "sealed" then Some broken else None) in
  let E := mkEnv false true Host.shell Host.files Host.stat Host.tree Host.compile
                 Host.trimSpace (fun s => s) deobf Host.flipValue (fun _ => None) in
  let sealed := mkCond "sealed" "" "" "" "" "" "" "" "" "" false in
  snd (runCheck E sealed ∅)
  = (EvFail [AStr "cipher: message authentication failed"]
       :: fst (snd (runCheck E cond_zero ∅)),
     snd (snd (runCheck E cond_zero ∅))).
Proof.
  intros broken deobf E sealed.
  apply (runCheck_deobfuscate_error E sealed cond_zero broken ∅ ∅); reflexivity.
Defined.

(** ** Predicates that do not read the regex flag *)

Lemma requireArgs_set_regex (E : Env) (b : bool) (c : cond) (args : list string) :
  requireArgs E (set_regex b c) args = requireArgs E c args.
Proof.
  destruct (String.eqb_spec (Type_ c) "") as [He|He].
  - rewrite !requireArgs_internal by exact He. reflexivity.
  - rewrite !requireArgs_by_slot by exact He. reflexivity.
Qed.

(** X22. [CommandOutput], [FileEquals] and [PathExists] never read the
    regex flag: with the flag set either way they log and return the
    same. *)
Theorem regex_flag_unread (E : Env) (b : bool) (c : cond) :
  CommandOutput E (set_regex b c) = CommandOutput E c /\
  FileEquals E (set_regex b c) = FileEquals E c /\
  PathExists E (set_regex b c) = PathExists E c.
Proof.
  unfold CommandOutput, FileEquals, PathExists.
  rewrite !requireArgs_set_regex. repeat split.
Qed.

(** ** Searching a file line by line *)

Lemma prefix_empty (s : string) : String.prefix "" s = true.
Proof. destruct s; reflexivity. Qed.

Lemma prefix_newline (b : ascii) (s : string) :
  String.prefix newline (String b s)
  = if ascii_dec (ascii_of_nat 10) b then true else false.
Proof.
  change (String.prefix newline (String b s))
    with (if ascii_dec (ascii_of_nat 10) b then String.prefix "" s else false).
  rewrite prefix_empty. reflexivity.
Qed.

Lemma has_newline_cons (b : ascii) (s : string) :
  strings_Contains (String b s) newline
  = (if ascii_dec (ascii_of_nat 10) b then true else false) || strings_Contains s newline.
Proof.
  change (strings_Contains (String b s) newline)
    with (String.prefix newline (String b s) || strings_Contains s newline).
  rewrite prefix_newline. reflexivity.
Qed.

Lemma strings_Split_cons (b : ascii) (s : string) :
  strings_Split (String b s) newline
  = if ascii_dec (ascii_of_nat 10) b then EmptyString :: strings_Split s newline
    else match strings_Split s newline with
         | piece :: pieces => String b piece :: pieces
         | [] => [String b EmptyString]
         end.
Proof.
  unfold strings_Split.
  change (split_from newline 0 (String b s))
    with (if String.prefix newline (String b s)
          then EmptyString :: split_from newline 0 s
          else match split_from newline 0 s with
               | piece :: pieces => String b piece :: pieces
               | [] => [String b EmptyString]
               end).
  rewrite prefix_newline. destruct (ascii_dec _ b); reflexivity.
Qed.

(** No line holds a line break. *)
Lemma lines_newline_free (s : string) :
  Forall (fun line => strings_Contains line newline = false) (strings_Split s newline).
Proof.
  induction s as [|a s IH].
  - constructor; [reflexivity|constructor].
  - rewrite strings_Split_cons. destruct (ascii_dec _ a) as [Ha|Ha].
    + constructor; [reflexivity|exact IH].
    + destruct (strings_Split s newline) as [|p ps].
      * constructor; [|constructor]. rewrite has_newline_cons.
        destruct (ascii_dec _ a); [contradiction|reflexivity].
      * inversion IH as [|? ? Hp Hps]; subst. constructor; [|exact Hps].
        rewrite has_newline_cons. destruct (ascii_dec _ a); [contradiction|exact Hp].
Qed.

Lemma prefix_has_newline (v s : string) :
  String.prefix v s = true -> strings_Contains v newline = true ->
  strings_Contains s newline = true.
Proof.
  revert s. induction v as [|b v IH]; intros s Hp Hv; [discriminate Hv|].
  destruct s as [|a s]; [discriminate Hp|].
  cbn [String.prefix] in Hp. destruct (ascii_dec b a) as [->|]; [|discriminate Hp].
  rewrite has_newline_cons in *. destruct (ascii_dec _ a); [reflexivity|].
  cbn [orb] in *. apply IH; assumption.
Qed.

Lemma contains_has_newline (s v : string) :
  strings_Contains s v = true -> strings_Contains v newline = true ->
  strings_Contains s newline = true.
Proof.
  induction s as [|a s IH]; intros Hc Hv.
  - cbn [strings_Contains] in Hc. rewrite orb_false_r in Hc.
    exact (prefix_has_newline _ _ Hc Hv).
  - change (strings_Contains (String a s) v)
      with (String.prefix v (String a s) || strings_Contains s v) in Hc.
    apply orb_true_iff in Hc as [Hc|Hc].
    + exact (prefix_has_newline _ _ Hc Hv).
    + rewrite has_newline_cons, (IH Hc Hv). apply orb_true_r.
Qed.

Lemma existsb_none {A : Type} (f : A -> bool) (l : list A) :
  Forall (fun x => f x = false) l -> existsb f l = false.
Proof.
  induction 1 as [|x l Hx _ IH]; [reflexivity|]. cbn [existsb]. rewrite Hx, IH. reflexivity.
Qed.

Lemma prefix_before_newline (v s : string) :
  strings_Contains v newline = false ->
  String.prefix v (String (ascii_of_nat 10) s) = String.prefix v "".
Proof.
  intros Hv. destruct v as [|b v]; [reflexivity|].
  rewrite has_newline_cons in Hv.
  destruct (ascii_dec (ascii_of_nat 10) b) as [Hb|Hb]; [discriminate Hv|].
  cbn [String.prefix]. destruct (ascii_dec b (ascii_of_nat 10)); [|reflexivity].
  congruence.
Qed.

(** A value without a line break is a prefix of a text when it is one
    of the first line. *)
Lemma prefix_first_line (s v p : string) (ps : list string) :
  strings_Contains v newline = false ->
  strings_Split s newline = p :: ps ->
  String.prefix v p = String.prefix v s.
Proof.
  revert v p ps. induction s as [|a s IH]; intros v p ps Hv Hs.
  - injection Hs as <- _. reflexivity.
  - rewrite strings_Split_cons in Hs. destruct (ascii_dec _ a) as [<-|Ha].
    + injection Hs as <- _. symmetry. apply prefix_before_newline. exact Hv.
    + destruct (strings_Split s newline) as [|p' ps'] eqn:Hs'.
      { exfalso. exact (strings_Split_nonempty _ _ Hs'). }
      injection Hs as <- _.
      destruct v as [|b v]; [reflexivity|].
      cbn [String.prefix]. destruct (ascii_dec b a); [|reflexivity].
      rewrite has_newline_cons in Hv. apply orb_false_iff in Hv as [_ Hv].
      exact (IH v p' ps' Hv eq_refl).
Qed.

(** Line by line or in one piece: the same for a value without a line
    break. *)
Lemma lines_contain (s v : string) :
  strings_Contains v newline = false ->
  existsb (fun line => strings_Contains line v) (strings_Split s newline)
  = strings_Contains s v.
Proof.
  intros Hv. induction s as [|a s IH].
  - cbn. rewrite !orb_false_r. reflexivity.
  - change (strings_Contains (String a s) v)
      with (String.prefix v (String a s) || strings_Contains s v).
    pose proof (strings_Split_cons a s) as Hcons.
    destruct (ascii_dec _ a) as [<-|Ha].
    + rewrite Hcons. cbn [existsb]. rewrite IH.
      rewrite (prefix_before_newline v s Hv).
      cbn [strings_Contains]. rewrite orb_false_r. reflexivity.
    + destruct (strings_Split s newline) as [|p ps] eqn:Hs.
      { exfalso. exact (strings_Split_nonempty _ _ Hs). }
      rewrite <- (prefix_first_line (String a s) v (String a p) ps Hv Hcons).
      rewrite Hcons. cbn [existsb] in *.
      change (strings_Contains (String a p) v)
        with (String.prefix v (String a p) || strings_Contains p v).
      rewrite <- IH. rewrite orb_assoc. reflexivity.
Qed.

(** X23. Without the regex flag, [FileContains] on a readable file
    answers whether [Value] occurs in the content of the file and
    holds no line break: reading line by line loses nothing for a
    value of one line, and a value with a line break in it is never
    found, whatever the file holds. *)
Theorem FileContains_whole_file (E : Env) (c : cond) (content : string) :
  validates E c ["Path"; "Value"] ->
  regex c = false ->
  readFile E (Path c) = (content, None) ->
  result (FileContains E c)
  = Some (strings_Contains content (Value c)
          && negb (strings_Contains (Value c) newline), None).
Proof.
  intros Hval Hr Hread. unfold FileContains.
  rewrite result_validated by exact Hval. rewrite Hread. cbn [notNil].
  rewrite result_mret, FileContains_loop_plain by exact Hr.
  destruct (strings_Contains (Value c) newline) eqn:Hv.
  - rewrite andb_false_r. rewrite existsb_none; [reflexivity|].
    eapply Forall_impl; [apply lines_newline_free|].
    intros line Hline. cbv beta in *.
    destruct (strings_Contains line (Value c)) eqn:Hc; [|reflexivity].
    rewrite (contains_has_newline _ _ Hc Hv) in Hline. discriminate Hline.
  - rewrite andb_true_r, lines_contain by exact Hv. reflexivity.
Qed.

Lemma FileContains_whole_file_witness :
  let E := Host.env true in
  result (FileContains E (Host.on_path "FileContains" "/etc/motd" "disk full"))
  = Some (true, None) /\
  result (FileContains E (Host.on_path "FileContains" "/etc/motd"
                            ("welcome" ++ newline ++ "ERROR")))
  = Some (false, None).
Proof.
  intros E. split.
  - apply (FileContains_whole_file E (Host.on_path "FileContains" "/etc/motd" "disk full")
             ("welcome" ++ newline ++ "ERROR: disk full" ++ newline));
      reflexivity.
  - apply (FileContains_whole_file E
             (Host.on_path "FileContains" "/etc/motd" ("welcome" ++ newline ++ "ERROR"))
             ("welcome" ++ newline ++ "ERROR: disk full" ++ newline));
      reflexivity.
Defined.
